(** * PluginBrowser: a shallow embedding of the plugin browser component

    The component keeps a list of plugins fetched once per mount, a
    selection, a view mode, a single [updating] slot and the plugin bound
    to the detail panel.  Its handlers are embedded as functions on an
    explicit [State]; the two awaited calls (the list fetch and the
    enable/disable request) are split at the [await] into the part that
    runs when the call is issued and the part that runs when it settles. *)

From Stdlib Require Import String Ascii List ZArith Lia Bool.
From Stdlib Require Import Sorted Permutation.
Import ListNotations.

Open Scope string_scope.
Open Scope Z_scope.

(** ** The JavaScript built-ins the component calls *)

Module JS.

(** A call either returns or throws (a rejected promise, for an async
    function). *)
Inductive completion (A : Type) : Type :=
| Return (a : A)
| Throw (message : string).
Arguments Return {A} a.
Arguments Throw {A} message.

(** [Array.prototype.findIndex]: the first index whose element passes the
    test, [-1] when none does. *)
Fixpoint findIndexFrom {A : Type} (test : A -> bool) (l : list A) (i : Z) : Z :=
  match l with
  | [] => -1
  | x :: rest => if test x then i else findIndexFrom test rest (i + 1)
  end.

Definition findIndex {A : Type} (test : A -> bool) (l : list A) : Z :=
  findIndexFrom test l 0.

(** [arr[i]] for an integral index: [undefined] (here [None]) outside
    [0 .. length-1]. *)
Definition index {A : Type} (l : list A) (i : Z) : option A :=
  if i <? 0 then None else nth_error l (Z.to_nat i).

Definition length {A : Type} (l : list A) : Z := Z.of_nat (List.length l).

(** [Math.ceil(n / c)] and [Math.floor(n / c)] for a length [n] and a
    positive column count [c]: array lengths are below 2^32, where the
    double quotient rounds to the exact integer ceiling and floor. *)
Definition ceil_div (n c : Z) : Z := (n + c - 1) / c.
Definition floor_div (n c : Z) : Z := n / c.

(** [a === b] for a string [a] and a [string | null] value [b]. *)
Definition strict_eq (a : string) (b : option string) : bool :=
  match b with
  | Some b' => String.eqb a b'
  | None => false
  end.

(** Truthiness of a [string | null]: [null] and the empty string are
    falsy. *)
Definition truthy (v : option string) : bool :=
  match v with
  | None => false
  | Some s => negb (String.eqb s EmptyString)
  end.

(** *** Collation

    [String.prototype.localeCompare] is the platform's locale collation:
    the component receives it from its environment, and so does the model,
    where the comparator is an input of the load (see [load_then]).  The
    comparator defined here is one such input, used where sample data is
    loaded: it compares names byte by byte with ASCII letter case folded
    away, and only when they are equal up to case does case decide, a
    lower-case letter first.  It does not stand for any platform's
    collation. *)
Definition is_upper (c : ascii) : bool :=
  let n := N_of_ascii c in ((65 <=? n) && (n <=? 90))%N.

Definition fold_char (c : ascii) : ascii :=
  if is_upper c then ascii_of_N (N_of_ascii c + 32) else c.

Definition case_char (c : ascii) : ascii :=
  if is_upper c then "1"%char else "0"%char.

Fixpoint map_string (f : ascii -> ascii) (s : string) : string :=
  match s with
  | EmptyString => EmptyString
  | String c rest => String (f c) (map_string f rest)
  end.

Definition fold_case (s : string) : string := map_string fold_char s.
Definition case_key (s : string) : string := map_string case_char s.

Definition collate (a b : string) : comparison :=
  match String.compare (fold_case a) (fold_case b) with
  | Eq => String.compare (case_key a) (case_key b)
  | c => c
  end.

Definition sign (c : comparison) : Z :=
  match c with
  | Lt => -1
  | Eq => 0
  | Gt => 1
  end.

Definition sample_localeCompare (a b : string) : Z := sign (collate a b).

(** *** [Array.prototype.sort]

    The sort is stable (ECMAScript 2019), so for a consistent comparison
    function its result is determined: an insertion sort that places an
    element in front of the first later element it does not exceed. *)
Section Sort.
Context {A : Type}.
Variable compareFn : A -> A -> Z.

Fixpoint insert (x : A) (l : list A) : list A :=
  match l with
  | [] => [x]
  | y :: rest =>
      if compareFn x y <=? 0 then x :: y :: rest else y :: insert x rest
  end.

Definition sort (l : list A) : list A := fold_right insert [] l.
End Sort.

End JS.

Import JS.

(** ** Types *)

Record Plugin : Type := mkPlugin {
  id : string;
  name : string;
  description : string;
  enabled : bool;
  operations : list string;
  utilities : list string
}.

Inductive ViewMode : Type :=
| icons
| list_view
| details.

Definition ViewMode_eqb (a b : ViewMode) : bool :=
  match a, b with
  | icons, icons | list_view, list_view | details, details => true
  | _, _ => false
  end.

(** The [detail] payload of the [agentos:open-window] event. *)
Record OpenWindow : Type := mkOpenWindow {
  appId : string;
  title : string;
  view : string;
  params_pluginId : string
}.

(** A [handleToggle] call suspended at its [await]: the argument it was
    called with, and the [detailPlugin] its closure captured. *)
Record ToggleCall : Type := mkToggleCall {
  call_plugin : Plugin;
  call_detailPlugin : option Plugin
}.

(** The component's state variables, followed by what lives outside React
    state: the effect's [cancelled] flag, whether the list fetch is still
    pending, the suspended [handleToggle] calls, the dispatched window
    events and the console. *)
Record State : Type := mkState {
  plugins : list Plugin;
  loading : bool;
  error : option string;
  selectedId : option string;
  viewMode : ViewMode;
  iconErrors : list string;
  updating : option string;
  detailPlugin : option Plugin;
  cancelled : bool;
  fetching : bool;
  inflight : list ToggleCall;
  dispatched : list OpenWindow;
  console : list string
}.

(** The state on mount, for a given [initialView]. *)
Definition mount (initialView : ViewMode) : State :=
  {| plugins := []; loading := true; error := None; selectedId := None;
     viewMode := initialView; iconErrors := []; updating := None;
     detailPlugin := None; cancelled := false; fetching := true;
     inflight := []; dispatched := []; console := [] |}.

(** *** State setters *)

Definition setPlugins (f : list Plugin -> list Plugin) (s : State) : State :=
  mkState (f (plugins s)) (loading s) (error s) (selectedId s) (viewMode s)
    (iconErrors s) (updating s) (detailPlugin s) (cancelled s) (fetching s)
    (inflight s) (dispatched s) (console s).

Definition setLoading (b : bool) (s : State) : State :=
  mkState (plugins s) b (error s) (selectedId s) (viewMode s)
    (iconErrors s) (updating s) (detailPlugin s) (cancelled s) (fetching s)
    (inflight s) (dispatched s) (console s).

Definition setError (e : option string) (s : State) : State :=
  mkState (plugins s) (loading s) e (selectedId s) (viewMode s)
    (iconErrors s) (updating s) (detailPlugin s) (cancelled s) (fetching s)
    (inflight s) (dispatched s) (console s).

Definition setSelectedId (v : option string) (s : State) : State :=
  mkState (plugins s) (loading s) (error s) v (viewMode s)
    (iconErrors s) (updating s) (detailPlugin s) (cancelled s) (fetching s)
    (inflight s) (dispatched s) (console s).

Definition setViewMode (m : ViewMode) (s : State) : State :=
  mkState (plugins s) (loading s) (error s) (selectedId s) m
    (iconErrors s) (updating s) (detailPlugin s) (cancelled s) (fetching s)
    (inflight s) (dispatched s) (console s).

Definition setIconErrors (f : list string -> list string) (s : State) : State :=
  mkState (plugins s) (loading s) (error s) (selectedId s) (viewMode s)
    (f (iconErrors s)) (updating s) (detailPlugin s) (cancelled s) (fetching s)
    (inflight s) (dispatched s) (console s).

Definition setUpdating (u : option string) (s : State) : State :=
  mkState (plugins s) (loading s) (error s) (selectedId s) (viewMode s)
    (iconErrors s) u (detailPlugin s) (cancelled s) (fetching s)
    (inflight s) (dispatched s) (console s).

Definition setDetailPlugin (d : option Plugin) (s : State) : State :=
  mkState (plugins s) (loading s) (error s) (selectedId s) (viewMode s)
    (iconErrors s) (updating s) d (cancelled s) (fetching s)
    (inflight s) (dispatched s) (console s).

Definition setCancelled (b : bool) (s : State) : State :=
  mkState (plugins s) (loading s) (error s) (selectedId s) (viewMode s)
    (iconErrors s) (updating s) (detailPlugin s) b (fetching s)
    (inflight s) (dispatched s) (console s).

Definition setFetching (b : bool) (s : State) : State :=
  mkState (plugins s) (loading s) (error s) (selectedId s) (viewMode s)
    (iconErrors s) (updating s) (detailPlugin s) (cancelled s) b
    (inflight s) (dispatched s) (console s).

Definition setInflight (f : list ToggleCall -> list ToggleCall) (s : State) : State :=
  mkState (plugins s) (loading s) (error s) (selectedId s) (viewMode s)
    (iconErrors s) (updating s) (detailPlugin s) (cancelled s) (fetching s)
    (f (inflight s)) (dispatched s) (console s).

Definition dispatchEvent (e : OpenWindow) (s : State) : State :=
  mkState (plugins s) (loading s) (error s) (selectedId s) (viewMode s)
    (iconErrors s) (updating s) (detailPlugin s) (cancelled s) (fetching s)
    (inflight s) (dispatched s ++ [e]) (console s).

Definition console_error (line : string) (s : State) : State :=
  mkState (plugins s) (loading s) (error s) (selectedId s) (viewMode s)
    (iconErrors s) (updating s) (detailPlugin s) (cancelled s) (fetching s)
    (inflight s) (dispatched s) (console s ++ [line]).

(** [{ ...p, enabled: b }] *)
Definition with_enabled (p : Plugin) (b : bool) : Plugin :=
  mkPlugin (id p) (name p) (description p) b (operations p) (utilities p).

(** ** API helpers *)

(** What [response.json()] yields: a rejection, or an object whose
    [plugins] field is present or not. *)
Inductive Body : Type :=
| NotJson (message : string)
| Json (plugins_field : option (list Plugin)).

(** What [fetch] yields: a rejection (a transport error), or a response
    with its [ok] flag, status text and body. *)
Inductive FetchResult : Type :=
| Rejected (message : string)
| Response (ok : bool) (statusText : string) (body : Body).

Definition fetchPlugins (r : FetchResult) : completion (list Plugin) :=
  match r with
  | Rejected message => Throw message
  | Response ok statusText body =>
      if negb ok then Throw ("Failed to fetch plugins: " ++ statusText)%string
      else
        match body with
        | NotJson message => Throw message
        | Json (Some data) => Return data
        | Json None => Return []
        end
  end.

Definition action_name (enabled : bool) : string :=
  if enabled then "enable_plugin" else "disable_plugin".

Definition setPluginEnabled (pluginId : string) (enabled : bool)
    (r : FetchResult) : completion unit :=
  let action := action_name enabled in
  match r with
  | Rejected message => Throw message
  | Response ok statusText _ =>
      if negb ok then Throw ("Failed to " ++ action ++ ": " ++ statusText)%string
      else Return tt
  end.

(** ** The component's effect and handlers *)

(** The [.then] and [.catch] callbacks of the mount effect;
    [localeCompare] is the collation the platform provides. *)
Definition load_then (localeCompare : string -> string -> Z)
    (data : list Plugin) (s : State) : State :=
  if negb (cancelled s) then
    let sorted := sort (fun a b => localeCompare (name a) (name b)) data in
    setLoading false (setPlugins (fun _ => sorted) s)
  else s.

Definition load_catch (message : string) (s : State) : State :=
  if negb (cancelled s) then setLoading false (setError (Some message) s)
  else s.

(** The list fetch settles. *)
Definition load_settle (localeCompare : string -> string -> Z)
    (r : FetchResult) (s : State) : State :=
  let s := setFetching false s in
  match fetchPlugins r with
  | Return data => load_then localeCompare data s
  | Throw message => load_catch message s
  end.

(** The effect's cleanup. *)
Definition unmount (s : State) : State := setCancelled true s.

Definition handleIconError (pluginId : string) (s : State) : State :=
  setIconErrors
    (fun prev => if existsb (String.eqb pluginId) prev then prev else (prev ++ [pluginId])%list)
    s.

Definition handleSelect (plugin : Plugin) (s : State) : State :=
  setDetailPlugin (Some plugin) (setSelectedId (Some (id plugin)) s).

(** The [onOpen] prop is the host's callback and is not modelled. *)
Definition handleOpen (plugin : Plugin) (s : State) : State :=
  dispatchEvent
    {| appId := "plugins"; title := name plugin; view := "detail";
       params_pluginId := id plugin |} s.

(** [handleToggle] up to its [await]. *)
Definition handleToggle_call (plugin : Plugin) (s : State) : State :=
  setInflight (fun calls => (calls ++ [mkToggleCall plugin (detailPlugin s)])%list)
    (setUpdating (Some (id plugin)) s).

(** [detailPlugin?.id === plugin.id] *)
Definition bound_to (d : option Plugin) (plugin : Plugin) : bool :=
  match d with
  | Some p => String.eqb (id p) (id plugin)
  | None => false
  end.

(** [handleToggle] from its [await] on, once the request has settled. *)
Definition handleToggle_resume (c : ToggleCall) (r : FetchResult) (s : State) : State :=
  let plugin := call_plugin c in
  let newEnabled := negb (enabled plugin) in
  let s1 :=
    match setPluginEnabled (id plugin) newEnabled r with
    | Return _ =>
        let s' :=
          setPlugins
            (fun prev =>
               map (fun p => if String.eqb (id p) (id plugin)
                             then with_enabled p newEnabled else p) prev) s in
        if bound_to (call_detailPlugin c) plugin
        then setDetailPlugin (Some (with_enabled plugin newEnabled)) s'
        else s'
    | Throw err => console_error ("Failed to update plugin: " ++ err)%string s
    end in
  setUpdating None s1.

Definition closeDetail (s : State) : State := setDetailPlugin None s.

(** *** Keyboard navigation *)

Inductive Key : Type :=
| ArrowRight | ArrowLeft | ArrowDown | ArrowUp
| Home | End_ | Enter | Escape
| Unhandled.

Definition key_of (key : string) : Key :=
  if String.eqb key "ArrowRight" then ArrowRight
  else if String.eqb key "ArrowLeft" then ArrowLeft
  else if String.eqb key "ArrowDown" then ArrowDown
  else if String.eqb key "ArrowUp" then ArrowUp
  else if String.eqb key "Home" then Home
  else if String.eqb key "End" then End_
  else if String.eqb key "Enter" then Enter
  else if String.eqb key "Escape" then Escape
  else Unhandled.

Definition columns_of (vm : ViewMode) : Z :=
  if ViewMode_eqb vm icons then 6 else 1.

(** The value of [newIndex] when the [switch] is left. *)
Definition newIndex (vm : ViewMode) (k : Key) (idx n : Z) : Z :=
  let columns := columns_of vm in
  let rows := ceil_div n columns in
  let currentRow := floor_div idx columns in
  let currentCol := Z.rem idx columns in
  match k with
  | ArrowRight =>
      if ViewMode_eqb vm icons then Z.min (idx + 1) (n - 1) else idx
  | ArrowLeft =>
      if ViewMode_eqb vm icons then Z.max (idx - 1) 0 else idx
  | ArrowDown =>
      if ViewMode_eqb vm icons then
        if currentRow <? rows - 1
        then Z.min ((currentRow + 1) * columns + currentCol) (n - 1)
        else idx
      else Z.min (idx + 1) (n - 1)
  | ArrowUp =>
      if ViewMode_eqb vm icons then
        if currentRow >? 0 then (currentRow - 1) * columns + currentCol else idx
      else Z.max (idx - 1) 0
  | Home => 0
  | End_ => n - 1
  | Enter | Escape | Unhandled => idx
  end.

Definition currentIndex_of (s : State) : Z :=
  findIndex (fun p => strict_eq (id p) (selectedId s)) (plugins s).

Definition idx_of (s : State) : Z :=
  let currentIndex := currentIndex_of s in
  if currentIndex =? -1 then 0 else currentIndex.

(** [setSelectedId(plugins[newIndex].id)]: reading [.id] of [undefined]
    throws. *)
Definition select_at (new : Z) (s : State) : completion State :=
  match index (plugins s) new with
  | Some p => Return (setSelectedId (Some (id p)) s)
  | None => Throw "TypeError: cannot read properties of undefined"
  end.

Definition handleKeyDown (key : string) (s : State) : completion State :=
  if length (plugins s) =? 0 then Return s
  else
    let currentIndex := currentIndex_of s in
    let idx := idx_of s in
    let k := key_of key in
    let new := newIndex (viewMode s) k idx (length (plugins s)) in
    match k with
    | Unhandled => Return s
    | Enter =>
        if currentIndex >=? 0 then
          match index (plugins s) currentIndex with
          | Some p => select_at new (handleOpen p s)
          | None => Throw "TypeError: cannot read properties of undefined"
          end
        else select_at new s
    | Escape =>
        match detailPlugin s with
        | Some _ => select_at new (closeDetail s)
        | None => select_at new s
        end
    | _ => select_at new s
    end.

(** *** What is rendered *)

Inductive Screen : Type :=
| LoadingScreen
| ErrorScreen (message : string)
| EmptyScreen
| BrowserScreen.

Definition render (s : State) : Screen :=
  if loading s then LoadingScreen
  else if truthy (error s) then
    match error s with
    | Some message => ErrorScreen message
    | None => EmptyScreen
    end
  else if length (plugins s) =? 0 then EmptyScreen
  else BrowserScreen.

Definition browsing (s : State) : bool :=
  negb (cancelled s) &&
  match render s with
  | BrowserScreen => true
  | _ => false
  end.

(** ** The component as a transition system *)

(** What can happen to a mounted component.  The settling fetch comes with
    what the environment supplies at that moment: the result of the
    request and the platform's collation.  A row event names the row by
    its position in the rendered list. *)
Inductive Event : Type :=
| LoadSettled (r : FetchResult) (localeCompare : string -> string -> Z)
| Unmount
| Click (i : nat)
| DoubleClick (i : nat)
| KeyDown (key : string)
| SwitchView (m : ViewMode)
| IconError (i : nat)
| ToggleRow (i : nat)
| TogglePanel
| ClosePanel
| ToggleSettled (i : nat) (r : FetchResult).

Fixpoint remove_nth {A : Type} (i : nat) (l : list A) : list A :=
  match l, i with
  | [], _ => []
  | _ :: rest, O => rest
  | x :: rest, S j => x :: remove_nth j rest
  end.

(** A user event on the rendered browser.  The details view disables the
    checkbox of the row whose id is [updating]; the panel disables its
    button when [updating] is the id of the bound plugin. *)
Definition fire_ui (e : Event) (s : State) : option State :=
  match e with
  | Click i => option_map (fun p => handleSelect p s) (nth_error (plugins s) i)
  | DoubleClick i => option_map (fun p => handleOpen p s) (nth_error (plugins s) i)
  | KeyDown key =>
      match handleKeyDown key s with
      | Return s' => Some s'
      | Throw _ => None
      end
  | SwitchView m => Some (setViewMode m s)
  | IconError i =>
      match nth_error (plugins s) i with
      | Some p =>
          if existsb (String.eqb (id p)) (iconErrors s) then None
          else Some (handleIconError (id p) s)
      | None => None
      end
  | ToggleRow i =>
      match nth_error (plugins s) i with
      | Some p =>
          if ViewMode_eqb (viewMode s) details && negb (strict_eq (id p) (updating s))
          then Some (handleToggle_call p s)
          else None
      | None => None
      end
  | TogglePanel =>
      match detailPlugin s with
      | Some d =>
          if strict_eq (id d) (updating s) then None
          else Some (handleToggle_call d s)
      | None => None
      end
  | ClosePanel =>
      match detailPlugin s with
      | Some _ => Some (closeDetail s)
      | None => None
      end
  | _ => None
  end.

Definition fire (e : Event) (s : State) : option State :=
  match e with
  | LoadSettled r localeCompare =>
      if fetching s then Some (load_settle localeCompare r s) else None
  | Unmount => if cancelled s then None else Some (unmount s)
  | ToggleSettled i r =>
      match nth_error (inflight s) i with
      | Some c => Some (handleToggle_resume c r (setInflight (remove_nth i) s))
      | None => None
      end
  | _ => if browsing s then fire_ui e s else None
  end.

Fixpoint run (events : list Event) (s : State) : option State :=
  match events with
  | [] => Some s
  | e :: rest =>
      match fire e s with
      | Some s' => run rest s'
      | None => None
      end
  end.

Inductive reachable : State -> Prop :=
| reachable_mount (initialView : ViewMode) : reachable (mount initialView)
| reachable_fire (s s' : State) (e : Event) :
    reachable s -> fire e s = Some s' -> reachable s'.

(** ** The navigation rule in the specification's words *)

Module Spec.

Inductive Direction : Type := left | right | up | down | home | end_.
Inductive Mode : Type := grid | list_ | table.

Definition columns (m : Mode) : nat :=
  match m with
  | grid => 6
  | _ => 1
  end.

Definition ceil (n c : nat) : nat :=
  if Nat.eqb (n mod c) 0 then (n / c)%nat else S (n / c).

(** The index of [sel] in [ids], 0 if not found. *)
Fixpoint position (sel : string) (ids : list string) : option nat :=
  match ids with
  | [] => None
  | x :: rest =>
      if String.eqb x sel then Some O else option_map S (position sel rest)
  end.

Definition idx (selectedId : option string) (orderedIds : list string) : nat :=
  match selectedId with
  | Some sel =>
      match position sel orderedIds with
      | Some i => i
      | None => O
      end
  | None => O
  end.

Definition move (m : Mode) (d : Direction) (idx n : nat) : nat :=
  let columns := columns m in
  let rows := ceil n columns in
  let row := (idx / columns)%nat in
  let col := (idx mod columns)%nat in
  match d, m with
  | home, _ => O
  | end_, _ => (n - 1)%nat
  | left, grid => Nat.max (idx - 1) 0
  | right, grid => Nat.min (idx + 1) (n - 1)
  | up, grid =>
      if Nat.ltb 0 row then ((row - 1) * columns + col)%nat else idx
  | down, grid =>
      if Nat.ltb row (rows - 1)
      then Nat.min ((row + 1) * columns + col) (n - 1)
      else idx
  | left, _ => idx
  | right, _ => idx
  | up, _ => Nat.max (idx - 1) 0
  | down, _ => Nat.min (idx + 1) (n - 1)
  end.

End Spec.

Definition mode_of (vm : ViewMode) : Spec.Mode :=
  match vm with
  | icons => Spec.grid
  | list_view => Spec.list_
  | details => Spec.table
  end.

Definition direction_of (k : Key) : option Spec.Direction :=
  match k with
  | ArrowLeft => Some Spec.left
  | ArrowRight => Some Spec.right
  | ArrowUp => Some Spec.up
  | ArrowDown => Some Spec.down
  | Home => Some Spec.home
  | End_ => Some Spec.end_
  | Enter | Escape | Unhandled => None
  end.

(** ** Sample data *)

Definition alpha : Plugin := mkPlugin "a" "Alpha" "First plugin" false [] [].
Definition beta : Plugin := mkPlugin "b" "Beta" "Second plugin" false ["search"] [].

Definition ok_response : FetchResult := Response true "OK" (Json None).
Definition list_response (data : list Plugin) : FetchResult :=
  Response true "OK" (Json (Some data)).
Definition server_error : FetchResult :=
  Response false "Internal Server Error" (Json None).

(** The browser after [alpha] and [beta] have loaded, in a given view. *)
Definition loaded (vm : ViewMode) : State :=
  load_settle sample_localeCompare (list_response [beta; alpha]) (mount vm).

(** The loaded browser with the panel open on [alpha]. *)
Definition panel_open : State := handleSelect alpha (loaded icons).

(** ** Invariant of the reachable states *)

(** The function [handleToggle] maps over the list on success. *)
Definition commit (plugin : Plugin) (newEnabled : bool) (p : Plugin) : Plugin :=
  if String.eqb (id p) (id plugin) then with_enabled p newEnabled else p.

Record Inv (s : State) : Prop := mkInv {
  inv_fetching : fetching s = true -> loading s = true;
  inv_loading : loading s = true -> error s = None;
  inv_unloaded :
    loading s = true \/ error s <> None ->
    plugins s = [] /\ inflight s = [] /\ selectedId s = None /\
    detailPlugin s = None /\ updating s = None;
  inv_selected :
    forall x, selectedId s = Some x -> In x (map id (plugins s));
  inv_panel : detailPlugin s <> None -> selectedId s <> None;
  inv_closure :
    forall c, In c (inflight s) -> call_detailPlugin c <> None ->
              selectedId s <> None;
  inv_updating :
    forall x, updating s = Some x ->
              exists c, In c (inflight s) /\ id (call_plugin c) = x;
  inv_idle : inflight s = [] -> updating s = None
}.

(** The load has failed: nothing that can still happen touches the (empty)
    list or the error. *)
Definition failed_with (message : string) (s : State) : Prop :=
  fetching s = false /\ loading s = false /\ error s = Some message /\
  plugins s = [] /\ inflight s = [].

(** The component was unmounted while still loading. *)
Definition abandoned (s : State) : Prop :=
  cancelled s = true /\ loading s = true /\ error s = None /\
  plugins s = [] /\ inflight s = [].

(** The details view with a toggle of [alpha] in flight. *)
Definition toggling_alpha : State := handleToggle_call alpha (loaded details).

(** In the details view: the checkbox of [alpha] is clicked while the panel
    is closed, the same click reaches the row and opens the panel on
    [alpha], and the request then succeeds. *)
Definition checkbox_click : list Event :=
  [ToggleRow 0; Click 0; ToggleSettled 0 ok_response].

(** ** Orders on names *)

(** A consistent comparison function, as ECMAScript asks of the argument
    of [Array.prototype.sort] for the sort order to be defined: comparing
    equal is an equivalence, and coming before and coming after are
    transitive.  A collation is one. *)
Definition consistent (localeCompare : string -> string -> Z) : Prop :=
  (forall a, localeCompare a a = 0) /\
  (forall a b, localeCompare a b = 0 -> localeCompare b a = 0) /\
  (forall a b c, localeCompare a b = 0 -> localeCompare b c = 0 ->
                 localeCompare a c = 0) /\
  (forall a b c, localeCompare a b < 0 -> localeCompare b c < 0 ->
                 localeCompare a c < 0) /\
  (forall a b c, 0 < localeCompare a b -> 0 < localeCompare b c ->
                 0 < localeCompare a c).

(** Ascending by name under a collation: no name exceeds a later one. *)
Definition ascending (localeCompare : string -> string -> Z)
    (l : list Plugin) : Prop :=
  StronglySorted (fun a b => localeCompare (name a) (name b) <= 0) l.

(** The order the specification names, case-insensitive lexicographic:
    character codes are compared with ASCII letter case folded away. *)
Definition ci_le (a b : string) : Prop :=
  String.compare (fold_case a) (fold_case b) <> Gt.

Definition by_name_ci (a b : Plugin) : Prop := ci_le (name a) (name b).

(** Comparison by a first key, and by a second where the first keys are
    equal. *)
Definition lex_compare (f g : string -> string) (a b : string) : comparison :=
  match String.compare (f a) (f b) with
  | Eq => String.compare (g a) (g b)
  | c => c
  end.

(** A collation that, as the root collation of the platforms' locale data
    does, puts punctuation before digits and digits before letters; case
    breaks ties.  With it, as with [localeCompare] in the engines built on
    that data, a name starting with a brace precedes every name starting
    with a letter. *)
Definition rank_char (c : ascii) : ascii :=
  let n := N_of_ascii (fold_char c) in
  if ((97 <=? n) && (n <=? 122))%N then ascii_of_N (n + 100)
  else if ((48 <=? n) && (n <=? 57))%N then ascii_of_N (n + 100)
  else c.

Definition rank_key (s : string) : string := map_string rank_char s.

Definition punctuation_first (a b : string) : Z :=
  sign (lex_compare rank_key case_key a b).

(** Two plugins whose names start with a letter and with a brace. *)
Definition zeta : Plugin := mkPlugin "z" "zeta" "Last letter" true [] [].
Definition core : Plugin := mkPlugin "c" "{core}" "Braced" true [] [].

(** A plugin with its [enabled] flag blanked: what a toggle never changes. *)
Definition erase (p : Plugin) : Plugin := with_enabled p false.

(** ** The in-flight guard *)

(** The number of suspended [handleToggle] calls for an id. *)
Definition pending_for (x : string) (s : State) : nat :=
  List.length (filter (fun c => String.eqb (id (call_plugin c)) x) (inflight s)).

(** At most one call in flight per id. *)
Definition one_call_per_id (s : State) : Prop :=
  forall x, (pending_for x s <= 1)%nat.

(** An id is marked as updating for as long as a call for it is pending. *)
Definition marked_while_pending (s : State) : Prop :=
  forall x, (0 < pending_for x s)%nat -> updating s = Some x.

(** In the details view, the checkboxes of [alpha], [beta] and [alpha]
    again are clicked before any request settles; each click also selects
    its row. *)
Definition three_clicks : list Event :=
  [ToggleRow 0; Click 0; ToggleRow 1; Click 1; ToggleRow 0; Click 0].

(** Names that differ in case and in letters. *)
Definition mixed_case : list Plugin :=
  [mkPlugin "1" "beta" "x" true [] []; mkPlugin "2" "Alpha" "x" true [] [];
   mkPlugin "3" "alpha" "x" false [] []; mkPlugin "4" "Beta" "x" false [] []].

(** ** Well-formedness of the reachable states *)

(** Everything the component holds besides the list refers to the list:
    the panel copy and the arguments of the suspended calls are records of
    the list up to their [enabled] flag, the failed icons are ids of the
    list, each recorded once, and a mounted component shows the loading
    screen exactly while the fetch is pending. *)
Record Wf (s : State) : Prop := mkWf {
  wf_panel :
    forall d, detailPlugin s = Some d -> In (erase d) (map erase (plugins s));
  wf_calls :
    forall c, In c (inflight s) ->
              In (erase (call_plugin c)) (map erase (plugins s));
  wf_icons_nodup : NoDup (iconErrors s);
  wf_icons :
    forall x, In x (iconErrors s) -> In x (map id (plugins s));
  wf_loading : cancelled s = false -> loading s = fetching s
}.

(** The payload [handleOpen] dispatches for a plugin. *)
Definition open_event (p : Plugin) : OpenWindow :=
  mkOpenWindow "plugins" (name p) "detail" (id p).

(** Three rows of six and a last row of two. *)
Definition twenty : list Plugin :=
  map (fun n => mkPlugin (String (ascii_of_nat (65 + n)) EmptyString)
                         (String (ascii_of_nat (65 + n)) EmptyString)
                         "plugin" false [] [])
      (seq 0 20).

Definition twenty_loaded : State :=
  load_settle sample_localeCompare (list_response twenty) (mount icons).

(** The browser after the icon of [alpha] failed to load. *)
Definition icon_failed : State := handleIconError "a" (loaded icons).

(** A response whose body has no [plugins] field. *)
Definition no_plugins_field (statusText : string) : FetchResult :=
  Response true statusText (Json None).

(** * PluginGrid: the icon grid with a configurable column count *)

Module Grid.

(** A call of one of the host's optional callback props, with its
    argument ([plugins[i]] is [undefined] outside the list). *)
Inductive Callback : Type :=
| onSelect (plugin : option Plugin)
| onOpen (plugin : option Plugin).

(** The state variables, the effect's [cancelled] flag, whether the fetch
    is pending, and the callbacks called so far. *)
Record State : Type := mkState {
  plugins : list Plugin;
  loading : bool;
  error : option string;
  selectedId : option string;
  iconErrors : list string;
  cancelled : bool;
  fetching : bool;
  called : list Callback
}.

Definition mount : State :=
  {| plugins := []; loading := true; error := None; selectedId := None;
     iconErrors := []; cancelled := false; fetching := true; called := [] |}.

Definition setSelectedId (v : option string) (s : State) : State :=
  mkState (plugins s) (loading s) (error s) v (iconErrors s)
    (cancelled s) (fetching s) (called s).

Definition call (c : Callback) (s : State) : State :=
  mkState (plugins s) (loading s) (error s) (selectedId s) (iconErrors s)
    (cancelled s) (fetching s) (called s ++ [c]).

(** The list fetch settles: the [.then] and [.catch] of the mount effect;
    [localeCompare] is the collation the platform provides. *)
Definition load_settle (localeCompare : string -> string -> Z)
    (r : FetchResult) (s : State) : State :=
  if negb (cancelled s) then
    match fetchPlugins r with
    | Return data =>
        let sorted := sort (fun a b => localeCompare (name a) (name b)) data in
        mkState sorted false (error s) (selectedId s) (iconErrors s)
          (cancelled s) false (called s)
    | Throw message =>
        mkState (plugins s) false (Some message) (selectedId s) (iconErrors s)
          (cancelled s) false (called s)
    end
  else
    mkState (plugins s) (loading s) (error s) (selectedId s) (iconErrors s)
      (cancelled s) false (called s).

Definition handleClick (plugin : Plugin) (s : State) : State :=
  call (onSelect (Some plugin)) (setSelectedId (Some (id plugin)) s).

Definition handleDoubleClick (plugin : Plugin) (s : State) : State :=
  call (onOpen (Some plugin)) s.

(** The value of [newIndex] when the [switch] is left, for an integral
    column count [columns >= 1] (the default is 6): there the quotients and
    the remainder are those JavaScript computes. *)
Definition newIndex (columns : Z) (k : Key) (idx n : Z) : Z :=
  let rows := ceil_div n columns in
  let currentRow := floor_div idx columns in
  let currentCol := Z.rem idx columns in
  match k with
  | ArrowRight => Z.min (idx + 1) (n - 1)
  | ArrowLeft => Z.max (idx - 1) 0
  | ArrowDown =>
      if currentRow <? rows - 1
      then Z.min ((currentRow + 1) * columns + currentCol) (n - 1)
      else idx
  | ArrowUp =>
      if currentRow >? 0 then (currentRow - 1) * columns + currentCol else idx
  | Home => 0
  | End_ => n - 1
  | Enter | Escape | Unhandled => idx
  end.

Definition currentIndex_of (s : State) : Z :=
  findIndex (fun p => strict_eq (id p) (selectedId s)) (plugins s).

Definition idx_of (s : State) : Z :=
  let currentIndex := currentIndex_of s in
  if currentIndex =? -1 then 0 else currentIndex.

(** [setSelectedId(plugins[newIndex].id); onSelect?.(plugins[newIndex])] *)
Definition select_at (new : Z) (s : State) : completion State :=
  match index (plugins s) new with
  | Some p => Return (call (onSelect (Some p)) (setSelectedId (Some (id p)) s))
  | None => Throw "TypeError: cannot read properties of undefined"
  end.

(** The grid has no [Escape] case: it falls to [default]. *)
Definition handleKeyDown (columns : Z) (key : string) (s : State) : completion State :=
  if JS.length (plugins s) =? 0 then Return s
  else
    let currentIndex := currentIndex_of s in
    let idx := idx_of s in
    let k := key_of key in
    let new := newIndex columns k idx (JS.length (plugins s)) in
    match k with
    | Unhandled | Escape => Return s
    | Enter =>
        if currentIndex >=? 0
        then select_at new (call (onOpen (index (plugins s) currentIndex)) s)
        else select_at new s
    | _ => select_at new s
    end.

(** The grid with [alpha] and [beta] loaded. *)
Definition loaded : State :=
  load_settle sample_localeCompare (list_response [beta; alpha]) mount.

End Grid.

(** The browser state that shows the same list and selection as a grid. *)
Definition same_view (g : Grid.State) (s : State) : Prop :=
  plugins s = Grid.plugins g /\ selectedId s = Grid.selectedId g /\
  viewMode s = icons.

(** * PluginDetail: the full-page view of one plugin *)

Module Detail.

(** [plugins.find(p => p.id === pluginId) || null] *)
Definition find_plugin (pluginId : string) (plugins : list Plugin) : option Plugin :=
  List.find (fun p => String.eqb (id p) pluginId) plugins.

Definition fetchPlugin (pluginId : string) (r : FetchResult) : completion (option Plugin) :=
  match r with
  | Rejected message => Throw message
  | Response ok statusText body =>
      if negb ok then Throw ("Failed to fetch plugins: " ++ statusText)%string
      else
        match body with
        | NotJson message => Throw message
        | Json (Some plugins) => Return (find_plugin pluginId plugins)
        | Json None => Return (find_plugin pluginId [])
        end
  end.

(** One run of the fetch effect: the [pluginId] its closure holds, its
    [cancelled] flag, and whether its promise has settled. *)
Record Fetch : Type := mkFetch {
  fetch_pluginId : string;
  fetch_cancelled : bool;
  fetch_settled : bool
}.

(** The [pluginId] prop and the state variables, followed by what lives
    outside React state: the effect runs so far, the run whose cleanup is
    registered, whether the component is mounted, the plugins the suspended
    [handleToggle] calls closed over, and the console. *)
Record State : Type := mkState {
  pluginId : string;
  plugin : option Plugin;
  loading : bool;
  error : option string;
  updating : bool;
  iconError : bool;
  fetches : list Fetch;
  cleanup : option nat;
  mounted : bool;
  inflight : list Plugin;
  console : list string
}.

Definition initial (pluginId : string) : State :=
  {| pluginId := pluginId; plugin := None; loading := true; error := None;
     updating := false; iconError := false; fetches := []; cleanup := None;
     mounted := true; inflight := []; console := [] |}.

Definition setPlugin (v : option Plugin) (s : State) : State :=
  mkState (pluginId s) v (loading s) (error s) (updating s) (iconError s)
    (fetches s) (cleanup s) (mounted s) (inflight s) (console s).

Definition setLoading (v : bool) (s : State) : State :=
  mkState (pluginId s) (plugin s) v (error s) (updating s) (iconError s)
    (fetches s) (cleanup s) (mounted s) (inflight s) (console s).

Definition setError (v : option string) (s : State) : State :=
  mkState (pluginId s) (plugin s) (loading s) v (updating s) (iconError s)
    (fetches s) (cleanup s) (mounted s) (inflight s) (console s).

Definition setUpdating (v : bool) (s : State) : State :=
  mkState (pluginId s) (plugin s) (loading s) (error s) v (iconError s)
    (fetches s) (cleanup s) (mounted s) (inflight s) (console s).

Definition setIconError (v : bool) (s : State) : State :=
  mkState (pluginId s) (plugin s) (loading s) (error s) (updating s) v
    (fetches s) (cleanup s) (mounted s) (inflight s) (console s).

Definition setFetches (f : list Fetch -> list Fetch) (c : option nat) (s : State) : State :=
  mkState (pluginId s) (plugin s) (loading s) (error s) (updating s) (iconError s)
    (f (fetches s)) c (mounted s) (inflight s) (console s).

Definition setInflight (f : list Plugin -> list Plugin) (s : State) : State :=
  mkState (pluginId s) (plugin s) (loading s) (error s) (updating s) (iconError s)
    (fetches s) (cleanup s) (mounted s) (f (inflight s)) (console s).

Definition console_error (line : string) (s : State) : State :=
  mkState (pluginId s) (plugin s) (loading s) (error s) (updating s) (iconError s)
    (fetches s) (cleanup s) (mounted s) (inflight s) (console s ++ [line]).

Fixpoint update_nth {A : Type} (k : nat) (f : A -> A) (l : list A) : list A :=
  match l, k with
  | [], _ => []
  | x :: rest, O => f x :: rest
  | x :: rest, S j => x :: update_nth j f rest
  end.

Definition cancel (f : Fetch) : Fetch :=
  mkFetch (fetch_pluginId f) true (fetch_settled f).

Definition settle (f : Fetch) : Fetch :=
  mkFetch (fetch_pluginId f) (fetch_cancelled f) true.

(** The body of the effect, for the current [pluginId]: without an id it
    reports an error and registers no cleanup. *)
Definition effect_run (s : State) : State :=
  if String.eqb (pluginId s) EmptyString then
    setFetches (fun fs => fs) None
      (setLoading false (setError (Some "No plugin specified") s))
  else
    setFetches
      (fun fs => fs ++ [mkFetch (pluginId s) false false])%list
      (Some (List.length (fetches s)))
      (setIconError false (setError None (setLoading true s))).

(** The registered cleanup, [cancelled = true] in the closure of its run. *)
Definition effect_cleanup (s : State) : State :=
  match cleanup s with
  | Some k => setFetches (update_nth k cancel) None s
  | None => s
  end.

Definition mount (pluginId : string) : State := effect_run (initial pluginId).

(** The [pluginId] prop changes: the effect's dependency changed, so the
    cleanup runs and then the effect again. *)
Definition change_pluginId (newId : string) (s : State) : State :=
  if String.eqb newId (pluginId s) then s
  else
    let s1 := effect_cleanup s in
    effect_run
      (mkState newId (plugin s1) (loading s1) (error s1) (updating s1) (iconError s1)
         (fetches s1) (cleanup s1) (mounted s1) (inflight s1) (console s1)).

Definition unmount (s : State) : State :=
  let s1 := effect_cleanup s in
  mkState (pluginId s1) (plugin s1) (loading s1) (error s1) (updating s1) (iconError s1)
    (fetches s1) (cleanup s1) false (inflight s1) (console s1).

(** The promise of effect run [f] settles: its [.then] and [.catch]. *)
Definition fetch_then (f : Fetch) (data : option Plugin) (s : State) : State :=
  if negb (fetch_cancelled f) then
    setLoading false
      match data with
      | Some p => setPlugin (Some p) s
      | None => setError (Some ("Plugin not found: " ++ fetch_pluginId f)%string) s
      end
  else s.

Definition fetch_catch (f : Fetch) (message : string) (s : State) : State :=
  if negb (fetch_cancelled f) then setLoading false (setError (Some message) s)
  else s.

Definition fetch_settle (k : nat) (f : Fetch) (r : FetchResult) (s : State) : State :=
  let s := setFetches (update_nth k settle) (cleanup s) s in
  match fetchPlugin (fetch_pluginId f) r with
  | Return data => fetch_then f data s
  | Throw message => fetch_catch f message s
  end.

(** [handleToggle] up to its [await]. *)
Definition handleToggle_call (s : State) : State :=
  match plugin s with
  | None => s
  | Some p => setInflight (fun calls => calls ++ [p])%list (setUpdating true s)
  end.

(** [handleToggle] from its [await] on; [p] is the plugin it closed over. *)
Definition handleToggle_resume (p : Plugin) (r : FetchResult) (s : State) : State :=
  let newEnabled := negb (enabled p) in
  let s1 :=
    match setPluginEnabled (id p) newEnabled r with
    | Return _ => setPlugin (Some (with_enabled p newEnabled)) s
    | Throw err => console_error ("Failed to update plugin: " ++ err)%string s
    end in
  setUpdating false s1.

Inductive Screen : Type :=
| LoadingScreen
| ErrorScreen (message : string)
| PluginScreen (p : Plugin).

(** [error || !plugin] guards the error screen, which shows
    [error || 'Plugin not found']. *)
Definition render (s : State) : Screen :=
  if loading s then LoadingScreen
  else if truthy (error s) then
    match error s with
    | Some message => ErrorScreen message
    | None => ErrorScreen "Plugin not found"
    end
  else
    match plugin s with
    | Some p => PluginScreen p
    | None => ErrorScreen "Plugin not found"
    end.

Inductive Event : Type :=
| ChangeId (newId : string)
| Unmount
| FetchSettled (k : nat) (r : FetchResult)
| ToggleClick
| ToggleSettled (r : FetchResult)
| IconFailed.

(** The toggle button is rendered on the plugin screen and disabled while
    [updating]; the icon reports an error only while it is rendered. *)
Definition fire (e : Event) (s : State) : option State :=
  match e with
  | ChangeId newId => if mounted s then Some (change_pluginId newId s) else None
  | Unmount => if mounted s then Some (unmount s) else None
  | FetchSettled k r =>
      match nth_error (fetches s) k with
      | Some f => if fetch_settled f then None else Some (fetch_settle k f r s)
      | None => None
      end
  | ToggleClick =>
      match render s with
      | PluginScreen _ =>
          if mounted s && negb (updating s) then Some (handleToggle_call s) else None
      | _ => None
      end
  | ToggleSettled r =>
      match inflight s with
      | p :: rest => Some (handleToggle_resume p r (setInflight (fun _ => rest) s))
      | [] => None
      end
  | IconFailed =>
      match render s with
      | PluginScreen _ =>
          if mounted s && negb (iconError s) then Some (setIconError true s) else None
      | _ => None
      end
  end.

Fixpoint run (events : list Event) (s : State) : option State :=
  match events with
  | [] => Some s
  | e :: rest =>
      match fire e s with
      | Some s' => run rest s'
      | None => None
      end
  end.

Inductive reachable : State -> Prop :=
| reachable_mount (pluginId : string) : reachable (mount pluginId)
| reachable_fire (s s' : State) (e : Event) :
    reachable s -> fire e s = Some s' -> reachable s'.

(** At most one run of the effect is live, the one whose cleanup is
    registered, and it is for the current [pluginId]; every other run is
    cancelled.  While the live run is unsettled the component is loading
    with no error.  [updating] is set exactly while a toggle is in flight,
    of which there is at most one. *)
Record Inv (s : State) : Prop := mkInv {
  inv_cleanup :
    forall k, cleanup s = Some k ->
      exists f, nth_error (fetches s) k = Some f /\
                fetch_cancelled f = false /\ fetch_pluginId f = pluginId s;
  inv_others :
    forall k f, nth_error (fetches s) k = Some f -> cleanup s <> Some k ->
                fetch_cancelled f = true;
  inv_pending :
    forall k f, cleanup s = Some k -> nth_error (fetches s) k = Some f ->
                fetch_settled f = false -> loading s = true /\ error s = None;
  inv_guard : inflight s = [] /\ updating s = false \/
              (exists p, inflight s = [p]) /\ updating s = true
}.

Definition ok (statusText : string) (plugins : list Plugin) : FetchResult :=
  Response true statusText (Json (Some plugins)).

End Detail.

(** The detail view of [alpha] once its fetch has found it. *)
Definition detail_alpha : Detail.State :=
  Detail.fetch_settle 0 (Detail.mkFetch "a" false false) (Detail.ok "OK" [beta; alpha])
    (Detail.mount "a").

(** Any event but a change of the [pluginId] prop. *)
Definition keeps_id (e : Detail.Event) : Prop :=
  match e with
  | Detail.ChangeId _ => False
  | _ => True
  end.

(** * Text and SearchResult: the text primitive and a component that uses it *)

Module Text.

(** [String.prototype.trim] on strings of ASCII characters.  Among those
    the white space and line terminators of ECMAScript are tab, line feed,
    vertical tab, form feed, carriage return and space.  Beyond ASCII there
    are more (U+00A0, U+FEFF, U+2028 and others) that [trim] below does not
    know: it is [String.prototype.trim] for the strings that satisfy
    [is_ascii], and what is proved of it is stated for those. *)
Definition is_ascii_char (c : ascii) : bool := (N_of_ascii c <? 128)%N.

Fixpoint is_ascii (s : string) : bool :=
  match s with
  | EmptyString => true
  | String c rest => is_ascii_char c && is_ascii rest
  end.

Definition is_space (c : ascii) : bool :=
  let n := N_of_ascii c in (((9 <=? n) && (n <=? 13)) || (n =? 32))%N.

Fixpoint trimStart (s : string) : string :=
  match s with
  | EmptyString => EmptyString
  | String c rest => if is_space c then trimStart rest else s
  end.

Fixpoint trimEnd (s : string) : string :=
  match s with
  | EmptyString => EmptyString
  | String c rest =>
      match trimEnd rest with
      | EmptyString => if is_space c then EmptyString else String c EmptyString
      | rest' => String c rest'
      end
  end.

Definition trim (s : string) : string := trimEnd (trimStart s).

(** Truthiness of an optional number (a [number | undefined] that is not
    [NaN]): [undefined] and 0 are falsy. *)
Definition truthy_number (v : option Z) : bool :=
  match v with
  | Some n => negb (n =? 0)
  | None => false
  end.

Definition default (d : string) (v : option string) : string :=
  match v with
  | Some s => s
  | None => d
  end.

(** The props; [None] is an omitted prop. *)
Record Props : Type := mkProps {
  children : string;
  variant : option string;
  overflow : option string;
  maxLines : option Z;
  size : option string;
  weight : option string;
  as_ : option string;
  href : option string;
  target : option string;
  className : option string
}.

Inductive Value : Type :=
| Str (s : string)
| Num (n : Z).

(** The rendered element: its tag, its class, its data attributes in the
    order they were set, its link attributes and its content. *)
Record Element : Type := mkElement {
  tag : string;
  class : string;
  data : list (string * Value);
  el_href : option string;
  el_target : option string;
  rel : option string;
  content : string
}.

Definition dataProps (p : Props) : list (string * Value) :=
  [("data-variant", Str (default "body" (variant p)))]
  ++ (if truthy (overflow p)
      then [("data-overflow", Str (default EmptyString (overflow p)))] else [])
  ++ (match maxLines p with
      | Some n => if truthy_number (maxLines p) then [("data-max-lines", Num n)] else []
      | None => []
      end)
  ++ (if truthy (size p)
      then [("data-size", Str (default EmptyString (size p)))] else [])
  ++ (if truthy (weight p)
      then [("data-weight", Str (default EmptyString (weight p)))] else []).

Definition Text (p : Props) : Element :=
  let Element := default "span" (as_ p) in
  let Tag := if truthy (href p) then "a" else Element in
  {| tag := Tag;
     class := trim ("text " ++ default EmptyString (className p));
     data := dataProps p;
     el_href := href p;
     el_target := target p;
     rel := if strict_eq "_blank" (target p) then Some "noopener noreferrer" else None;
     content := children p |}.

(** Props with only [children] given. *)
Definition plain (children : string) : Props :=
  mkProps children None None None None None None None None None.

Fixpoint all_space (s : string) : bool :=
  match s with
  | EmptyString => true
  | String c rest => is_space c && all_space rest
  end.

(** The last character of a string is white space. *)
Fixpoint ends_in_space (s : string) : bool :=
  match s with
  | EmptyString => false
  | String c EmptyString => is_space c
  | String _ rest => ends_in_space rest
  end.

End Text.

Module SearchResult.

Record Props : Type := mkProps {
  title : string;
  url : string;
  snippet : option string;
  titleMaxLines : option Z;
  urlOverflow : option string
}.

(** The children of the [search-result] element: the title link, the URL
    line, and the snippet when there is one. *)
Definition SearchResult (p : Props) : list Text.Element :=
  let titleMaxLines := match titleMaxLines p with Some n => n | None => 2 end in
  let urlOverflow := Text.default "ellipsis" (urlOverflow p) in
  [Text.Text
     (Text.mkProps (title p) (Some "title") (Some "ellipsis") (Some titleMaxLines)
        None None (Some "a") (Some (url p)) (Some "_blank")
        (Some "search-result-title"));
   Text.Text
     (Text.mkProps (url p) (Some "url") (Some urlOverflow) (Some 1)
        None None None None None (Some "search-result-url"))]
  ++ (match snippet p with
      | Some text =>
          if truthy (snippet p) then
            [Text.Text
               (Text.mkProps text (Some "body") None (Some 3)
                  None None (Some "p") None None (Some "search-result-snippet"))]
          else []
      | None => []
      end).

Definition example : Props :=
  mkProps "Rocq" "https://rocq-prover.org" (Some "A proof assistant") None None.

End SearchResult.

(** ** The status bar of the browser *)

(** [plugins.find(p => p.id === selectedId)] *)
Definition selectedPlugin (s : State) : option Plugin :=
  List.find (fun p => strict_eq (id p) (selectedId s)) (plugins s).

(** The plugin named in the status bar: [selectedPlugin && !detailPlugin]. *)
Definition statusBar (s : State) : option Plugin :=
  match selectedPlugin s, detailPlugin s with
  | Some p, None => Some p
  | _, _ => None
  end.

(** * Properties *)

(** ** Array built-ins *)

Lemma index_Some {A : Type} (l : list A) (i : Z) :
  0 <= i < JS.length l -> exists x, index l i = Some x /\ In x l.
Proof.
  unfold index, JS.length. intros [Hlo Hhi].
  destruct (Z.ltb_spec i 0) as [Hneg | _]; [lia |].
  destruct (nth_error l (Z.to_nat i)) as [x |] eqn:Hnth.
  - exists x. split; [reflexivity | eapply nth_error_In; eassumption].
  - apply nth_error_None in Hnth. lia.
Qed.

Lemma index_nth_error {A : Type} (l : list A) (i : nat) :
  index l (Z.of_nat i) = nth_error l i.
Proof.
  unfold index. destruct (Z.ltb_spec (Z.of_nat i) 0) as [Hneg | _]; [lia |].
  now rewrite Nat2Z.id.
Qed.

Lemma findIndexFrom_position (sel : option string) (l : list Plugin) (i : Z) :
  findIndexFrom (fun p => strict_eq (id p) sel) l i =
  match sel with
  | Some x =>
      match Spec.position x (map id l) with
      | Some k => i + Z.of_nat k
      | None => -1
      end
  | None => -1
  end.
Proof.
  revert i. induction l as [| p l IH]; intro i; cbn [findIndexFrom map Spec.position].
  - now destruct sel.
  - destruct sel as [x |]; cbn [strict_eq].
    + destruct (String.eqb (id p) x).
      * cbn. lia.
      * rewrite IH. destruct (Spec.position x (map id l)); cbn; lia.
    + apply IH.
Qed.

Lemma position_bound (x : string) (ids : list string) (k : nat) :
  Spec.position x ids = Some k -> nth_error ids k = Some x.
Proof.
  revert k. induction ids as [| y ids IH]; intro k; cbn; [discriminate |].
  destruct (String.eqb_spec y x) as [-> | Hne].
  - intros [= <-]. reflexivity.
  - destruct (Spec.position x ids) as [j |]; cbn; [| discriminate].
    intros [= <-]. cbn. now apply IH.
Qed.

Lemma position_In (x : string) (ids : list string) :
  In x ids -> exists k, Spec.position x ids = Some k.
Proof.
  induction ids as [| y ids IH]; cbn; [tauto |].
  intros [-> | Hin].
  - rewrite String.eqb_refl. now exists O.
  - destruct (String.eqb y x); [now exists O |].
    destruct (IH Hin) as [k ->]. now exists (S k).
Qed.

(** [idx] is the position the specification names. *)
Lemma idx_of_position (s : State) :
  idx_of s = Z.of_nat (Spec.idx (selectedId s) (map id (plugins s))).
Proof.
  unfold idx_of, currentIndex_of, findIndex, Spec.idx.
  rewrite findIndexFrom_position.
  destruct (selectedId s) as [x |]; [| reflexivity].
  destruct (Spec.position x (map id (plugins s))) as [k |]; [| reflexivity].
  destruct (Z.eqb_spec (0 + Z.of_nat k) (-1)); lia.
Qed.

Lemma spec_idx_bound (sel : option string) (ids : list string) :
  ids <> [] -> (Spec.idx sel ids < List.length ids)%nat.
Proof.
  intro Hne. unfold Spec.idx.
  assert (0 < List.length ids)%nat by (destruct ids; [congruence | cbn; lia]).
  destruct sel as [x |]; [| assumption].
  destruct (Spec.position x ids) as [k |] eqn:Hk; [| assumption].
  apply position_bound in Hk. apply nth_error_Some. congruence.
Qed.

Lemma idx_of_range (s : State) :
  plugins s <> [] -> 0 <= idx_of s < JS.length (plugins s).
Proof.
  intro Hne. rewrite idx_of_position. unfold JS.length.
  assert (Spec.idx (selectedId s) (map id (plugins s)) < List.length (map id (plugins s)))%nat
    by (apply spec_idx_bound; destruct (plugins s); [congruence | discriminate]).
  rewrite length_map in *. lia.
Qed.

(** ** Index arithmetic *)

Lemma newIndex_range (vm : ViewMode) (k : Key) (i n : Z) :
  0 <= i < n -> 0 <= newIndex vm k i n < n.
Proof.
  intro Hi. unfold newIndex, columns_of, ceil_div, floor_div.
  destruct vm, k; cbn [ViewMode_eqb]; try lia;
    repeat match goal with
           | |- context [if ?b then _ else _] => destruct b eqn:?
           end;
    try lia;
    rewrite ?Z.rem_mod_nonneg by lia;
    Z.to_euclidean_division_equations; lia.
Qed.

Lemma newIndex_matches_spec (vm : ViewMode) (k : Key) (d : Spec.Direction) (i n : nat) :
  direction_of k = Some d -> (i < n)%nat ->
  newIndex vm k (Z.of_nat i) (Z.of_nat n) = Z.of_nat (Spec.move (mode_of vm) d i n).
Proof.
  intros Hd Hi.
  pose proof (Nat.div_mod_eq i 6) as Hi6.
  pose proof (Nat.mod_upper_bound i 6 ltac:(lia)) as Hi6'.
  pose proof (Nat.div_mod_eq n 6) as Hn6.
  pose proof (Nat.mod_upper_bound n 6 ltac:(lia)) as Hn6'.
  unfold newIndex, columns_of, ceil_div, floor_div, Spec.move, Spec.ceil.
  destruct vm, k; cbn in Hd; inversion Hd; subst d;
    cbn [ViewMode_eqb mode_of Spec.columns]; try lia;
    rewrite Z.rem_mod_nonneg by lia.
  - (* down, grid *)
    destruct (Nat.eqb_spec (n mod 6) 0) as [Hm | Hm];
      destruct (Z.ltb_spec (Z.of_nat i / 6) ((Z.of_nat n + 6 - 1) / 6 - 1));
      match goal with
      | |- context [Nat.ltb ?a ?b] => destruct (Nat.ltb_spec a b)
      end;
      Z.to_euclidean_division_equations; lia.
  - (* up, grid *)
    destruct (Z.gtb_spec (Z.of_nat i / 6) 0);
      destruct (Nat.ltb_spec 0 (i / 6));
      Z.to_euclidean_division_equations; lia.
Qed.

(** ** Keyboard navigation *)

Lemma currentIndex_found (s : State) :
  0 <= currentIndex_of s ->
  currentIndex_of s = idx_of s /\ 0 <= currentIndex_of s < JS.length (plugins s).
Proof.
  intro Hc. unfold idx_of.
  destruct (Z.eqb_spec (currentIndex_of s) (-1)) as [E | _]; [lia |].
  split; [reflexivity |].
  unfold currentIndex_of, findIndex in *. rewrite findIndexFrom_position in *.
  destruct (selectedId s) as [x |]; [| lia].
  destruct (Spec.position x (map id (plugins s))) as [k |] eqn:Hk; [| lia].
  apply position_bound in Hk.
  assert (k < List.length (map id (plugins s)))%nat by (apply nth_error_Some; congruence).
  rewrite length_map in *. unfold JS.length. lia.
Qed.

(** On a non-empty list a handled key selects [plugins[newIndex]]; before
    that, Enter may have dispatched the open event and Escape may have
    closed the panel. *)
Lemma handleKeyDown_handled (key : string) (s : State) :
  plugins s <> [] -> key_of key <> Unhandled ->
  exists s1 p,
    handleKeyDown key s = Return (setSelectedId (Some (id p)) s1) /\
    index (plugins s)
      (newIndex (viewMode s) (key_of key) (idx_of s) (JS.length (plugins s))) = Some p /\
    In p (plugins s) /\
    match key_of key with
    | Escape => s1 = match detailPlugin s with Some _ => closeDetail s | None => s end
    | Enter => s1 = s \/ exists q, In q (plugins s) /\ s1 = handleOpen q s
    | _ => s1 = s
    end.
Proof.
  intros Hne Hk.
  pose proof (idx_of_range s Hne) as Hidx.
  pose proof (newIndex_range (viewMode s) (key_of key) _ _ Hidx) as Hnew.
  destruct (index_Some (plugins s) _ Hnew) as (p & Hp & Hin).
  unfold handleKeyDown.
  destruct (Z.eqb_spec (JS.length (plugins s)) 0) as [E | _]; [lia |].
  destruct (key_of key) eqn:Hkey; try congruence.
  1-6: exists s, p; unfold select_at; rewrite Hp; auto.
  - (* Enter *)
    destruct (Z.geb_spec (currentIndex_of s) 0) as [Hc | Hc].
    + destruct (currentIndex_found s Hc) as [_ Hr].
      destruct (index_Some (plugins s) _ Hr) as (q & Hq & Hqin).
      rewrite Hq. exists (handleOpen q s), p.
      unfold select_at. cbn [plugins handleOpen dispatchEvent]. rewrite Hp.
      repeat split; eauto.
    + exists s, p. unfold select_at. rewrite Hp. auto.
  - (* Escape *)
    destruct (detailPlugin s) as [d |].
    + exists (closeDetail s), p. unfold select_at.
      cbn [plugins closeDetail setDetailPlugin]. rewrite Hp. auto.
    + exists s, p. unfold select_at. rewrite Hp. auto.
Qed.

Lemma handleKeyDown_empty (key : string) (s : State) :
  plugins s = [] -> handleKeyDown key s = Return s.
Proof. intro E. unfold handleKeyDown. now rewrite E. Qed.

Lemma handleKeyDown_unhandled (key : string) (s : State) :
  key_of key = Unhandled -> handleKeyDown key s = Return s.
Proof.
  intro E. unfold handleKeyDown. rewrite E.
  now destruct (JS.length (plugins s) =? 0).
Qed.

Lemma handled_plugins (k : Key) (s s1 : State) :
  match k with
  | Escape => s1 = match detailPlugin s with Some _ => closeDetail s | None => s end
  | Enter => s1 = s \/ exists q, In q (plugins s) /\ s1 = handleOpen q s
  | _ => s1 = s
  end ->
  plugins s1 = plugins s /\ viewMode s1 = viewMode s /\ selectedId s1 = selectedId s.
Proof.
  destruct k; intro H; subst; auto.
  - destruct H as [-> | (q & _ & ->)]; auto.
  - destruct (detailPlugin s); auto.
Qed.

Lemma idx_of_agree (s t : State) :
  selectedId t = selectedId s -> plugins t = plugins s -> idx_of t = idx_of s.
Proof. intros Hs Hp. unfold idx_of, currentIndex_of. now rewrite Hs, Hp. Qed.

(** C3: [handleKeyDown] never throws; it leaves the plugin list alone; on
    an empty list it changes nothing; otherwise the selection is either
    unchanged or the id of the plugin at an index within [0, n-1]; and the
    new selection is a function of the selection, the view mode and the
    list only. *)
Theorem handleKeyDown_total (key : string) (s : State) :
  exists s',
    handleKeyDown key s = Return s' /\
    plugins s' = plugins s /\
    (plugins s = [] -> s' = s) /\
    (selectedId s' = selectedId s \/
     exists i p, 0 <= i < JS.length (plugins s) /\
                 index (plugins s) i = Some p /\
                 selectedId s' = Some (id p)) /\
    (forall t, selectedId t = selectedId s -> viewMode t = viewMode s ->
               plugins t = plugins s ->
               exists t', handleKeyDown key t = Return t' /\
                          selectedId t' = selectedId s').
Proof.
  destruct (plugins s) as [| p0 ps] eqn:Hps.
  - exists s. rewrite handleKeyDown_empty by assumption.
    repeat split; auto.
    intros t Hsel _ Hpl. exists t.
    rewrite handleKeyDown_empty by congruence. auto.
  - destruct (key_of key) eqn:Hkey.
    9: { exists s. rewrite handleKeyDown_unhandled by assumption.
         repeat split; auto; try congruence.
         intros t Hsel _ _. exists t.
         rewrite handleKeyDown_unhandled by assumption. auto. }
    all: assert (Hne : plugins s <> []) by congruence;
      assert (Hk : key_of key <> Unhandled) by congruence;
      destruct (handleKeyDown_handled key s Hne Hk) as (s1 & p & Hrun & Hp & Hin & Hs1);
      apply handled_plugins in Hs1; destruct Hs1 as (Hpl1 & _ & _);
      exists (setSelectedId (Some (id p)) s1);
      (split; [exact Hrun |]);
      (split; [cbn; congruence |]);
      (split; [congruence |]);
      (split;
       [ right; exists (newIndex (viewMode s) (key_of key) (idx_of s) (JS.length (plugins s))), p;
         rewrite <- Hps; repeat split; auto;
         apply newIndex_range, idx_of_range; assumption
       | intros t Hsel Hvm Hpl;
         assert (Hnet : plugins t <> []) by congruence;
         destruct (handleKeyDown_handled key t Hnet Hk) as (t1 & q & Hrunt & Hq & _ & _);
         exists (setSelectedId (Some (id q)) t1); split; [exact Hrunt |];
         rewrite (idx_of_agree s t Hsel), Hvm in Hq by congruence;
         replace (plugins t) with (plugins s) in Hq by congruence;
         cbn; congruence ]).
Qed.

Lemma handleKeyDown_total_witness :
  exists s',
    handleKeyDown "End" (loaded icons) = Return s' /\
    selectedId s' = Some "b".
Proof.
  destruct (handleKeyDown_total "End" (loaded icons)) as (s' & Hrun & _).
  exists s'. split; [exact Hrun |].
  vm_compute in Hrun. injection Hrun as <-. reflexivity.
Defined.

(** C4: on a non-empty list, a navigation key selects the plugin whose
    position is given by the specification's formula, applied to the
    position of [selectedId] in the list (0 if not found), the mode that
    corresponds to the view and the length of the list. *)
Theorem handleKeyDown_matches_spec (key : string) (d : Spec.Direction) (s : State) :
  direction_of (key_of key) = Some d ->
  plugins s <> [] ->
  exists s' p,
    handleKeyDown key s = Return s' /\
    nth_error (plugins s)
      (Spec.move (mode_of (viewMode s)) d
         (Spec.idx (selectedId s) (map id (plugins s)))
         (List.length (plugins s))) = Some p /\
    selectedId s' = Some (id p).
Proof.
  intros Hd Hne.
  assert (Hk : key_of key <> Unhandled) by (intro E; rewrite E in Hd; discriminate).
  destruct (handleKeyDown_handled key s Hne Hk) as (s1 & p & Hrun & Hp & _ & _).
  exists (setSelectedId (Some (id p)) s1), p.
  split; [exact Hrun |]. split; [| reflexivity].
  rewrite idx_of_position in Hp. unfold JS.length in Hp.
  rewrite (newIndex_matches_spec _ _ d) in Hp.
  - now rewrite index_nth_error in Hp.
  - assumption.
  - rewrite <- (length_map id). apply spec_idx_bound.
    destruct (plugins s); [congruence | discriminate].
Qed.

Lemma handleKeyDown_matches_spec_witness :
  exists s' p,
    handleKeyDown "ArrowRight" (loaded icons) = Return s' /\
    nth_error (plugins (loaded icons))
      (Spec.move Spec.grid Spec.right
         (Spec.idx (selectedId (loaded icons)) (map id (plugins (loaded icons))))
         (List.length (plugins (loaded icons)))) = Some p /\
    selectedId s' = Some (id p).
Proof.
  apply (handleKeyDown_matches_spec "ArrowRight" Spec.right (loaded icons)).
  - reflexivity.
  - vm_compute. discriminate.
Defined.

Lemma position_Some_In (x : string) (ids : list string) (k : nat) :
  Spec.position x ids = Some k -> In x ids.
Proof. intro H. apply position_bound in H. eapply nth_error_In; eassumption. Qed.

Lemma idx_of_unselected (s : State) :
  (forall x, selectedId s = Some x -> ~ In x (map id (plugins s))) ->
  idx_of s = 0.
Proof.
  intro Hno. rewrite idx_of_position. unfold Spec.idx.
  destruct (selectedId s) as [x |]; [| reflexivity].
  destruct (Spec.position x (map id (plugins s))) as [k |] eqn:Hk; [| reflexivity].
  apply position_Some_In in Hk. now destruct (Hno x eq_refl).
Qed.

(** C10: on a non-empty list with no valid selection, every handled key
    selects a plugin of the list; Escape, and ArrowLeft and ArrowRight
    outside the icon view, select the plugin at index 0. *)
Theorem handled_key_selects_from_no_selection (key : string) (s : State) :
  plugins s <> [] ->
  key_of key <> Unhandled ->
  (forall x, selectedId s = Some x -> ~ In x (map id (plugins s))) ->
  exists s' p,
    handleKeyDown key s = Return s' /\
    In p (plugins s) /\
    selectedId s' = Some (id p) /\
    (key_of key = Escape \/
     (viewMode s <> icons /\ (key_of key = ArrowLeft \/ key_of key = ArrowRight)) ->
     nth_error (plugins s) 0 = Some p).
Proof.
  intros Hne Hk Hno.
  destruct (handleKeyDown_handled key s Hne Hk) as (s1 & p & Hrun & Hp & Hin & _).
  exists (setSelectedId (Some (id p)) s1), p.
  repeat split; auto.
  rewrite (idx_of_unselected s Hno) in Hp.
  intros [E | (Hvm & [E | E])]; rewrite E in Hp; unfold newIndex in Hp;
    try (destruct (viewMode s); [congruence | |]; cbn [ViewMode_eqb] in Hp);
    exact Hp.
Qed.

Lemma handled_key_selects_from_no_selection_witness :
  exists s' p,
    handleKeyDown "Escape" (loaded list_view) = Return s' /\
    In p (plugins (loaded list_view)) /\
    selectedId s' = Some (id p) /\
    (key_of "Escape" = Escape \/
     (viewMode (loaded list_view) <> icons /\
      (key_of "Escape" = ArrowLeft \/ key_of "Escape" = ArrowRight)) ->
     nth_error (plugins (loaded list_view)) 0 = Some p).
Proof.
  apply (handled_key_selects_from_no_selection "Escape" (loaded list_view)).
  - vm_compute. discriminate.
  - vm_compute. discriminate.
  - intros x Hx. vm_compute in Hx. discriminate.
Defined.

(** *** The navigation scenarios of the specification *)

Example scenario_A :
  handleKeyDown "ArrowRight" (setSelectedId (Some "a") (loaded icons))
  = Return (setSelectedId (Some "b") (loaded icons)).
Proof. reflexivity. Qed.

Example scenario_B :
  handleKeyDown "ArrowRight" (setSelectedId (Some "b") (loaded icons))
  = Return (setSelectedId (Some "b") (loaded icons)).
Proof. reflexivity. Qed.

Example scenario_E :
  handleKeyDown "Escape" panel_open
  = Return (closeDetail panel_open).
Proof. reflexivity. Qed.

Example escape_selects_first_when_unselected :
  handleKeyDown "Escape" (loaded list_view)
  = Return (setSelectedId (Some "a") (loaded list_view)).
Proof. reflexivity. Qed.

Example unhandled_key_is_ignored :
  handleKeyDown "Tab" (loaded icons) = Return (loaded icons).
Proof. reflexivity. Qed.

(** ** Reachable states *)

Lemma run_reachable (events : list Event) (s s' : State) :
  reachable s -> run events s = Some s' -> reachable s'.
Proof.
  revert s. induction events as [| e events IH]; intros s Hs Hrun; cbn in Hrun.
  - now injection Hrun as <-.
  - destruct (fire e s) as [s1 |] eqn:Hfire; [| discriminate].
    eapply IH; [| eassumption]. eapply reachable_fire; eassumption.
Qed.

Lemma In_remove_nth {A : Type} (i : nat) (l : list A) (x : A) :
  In x (remove_nth i l) -> In x l.
Proof.
  revert i. induction l as [| y l IH]; intros [| i]; cbn; auto.
  intros [-> | H]; eauto.
Qed.

Lemma map_id_commit (plugin : Plugin) (b : bool) (l : list Plugin) :
  map id (map (fun p => if String.eqb (id p) (id plugin) then with_enabled p b else p) l)
  = map id l.
Proof.
  rewrite map_map. apply map_ext. intro p.
  now destruct (String.eqb (id p) (id plugin)).
Qed.

Lemma handleKeyDown_cases (key : string) (s s' : State) :
  handleKeyDown key s = Return s' ->
  s' = s \/
  exists p s1,
    plugins s <> [] /\ In p (plugins s) /\ s' = setSelectedId (Some (id p)) s1 /\
    (s1 = s \/ s1 = closeDetail s \/ exists q, s1 = handleOpen q s).
Proof.
  intro Hrun.
  destruct (plugins s) as [| p0 ps] eqn:Hps.
  - rewrite handleKeyDown_empty in Hrun by assumption. left. congruence.
  - destruct (key_of key) eqn:Hkey.
    9: { rewrite handleKeyDown_unhandled in Hrun by assumption. left. congruence. }
    all: right;
      assert (Hne : plugins s <> []) by congruence;
      assert (Hk : key_of key <> Unhandled) by congruence;
      destruct (handleKeyDown_handled key s Hne Hk) as (s1 & p & Hrun' & _ & Hin & Hs1);
      rewrite Hrun' in Hrun; injection Hrun as <-;
      exists p, s1; rewrite <- Hps; repeat split; auto;
      rewrite Hkey in Hs1.
    1-6: now left.
    + destruct Hs1 as [-> | (q & _ & ->)]; eauto.
    + destruct (detailPlugin s); subst; auto.
Qed.

Lemma browsing_inv (s : State) :
  browsing s = true ->
  cancelled s = false /\ loading s = false /\ plugins s <> [].
Proof.
  unfold browsing, render. intro H.
  apply andb_true_iff in H. destruct H as [Hc H].
  apply negb_true_iff in Hc.
  destruct (loading s); [discriminate |].
  destruct (truthy (error s)).
  - destruct (error s); discriminate.
  - destruct (plugins s); [discriminate | repeat split; congruence].
Qed.

Lemma Inv_mount (initialView : ViewMode) : Inv (mount initialView).
Proof. constructor; cbn; auto; try discriminate; try tauto. Qed.

Ltac inv_fields H :=
  destruct H as [Hfetch Hload Hunl Hsel Hpan Hclo Hupd Hidle].

Lemma Inv_fire (s s' : State) (e : Event) :
  Inv s -> fire e s = Some s' -> Inv s'.
Proof.
  intros HI Hfire. inv_fields HI.
  destruct e; cbn [fire] in Hfire;
    try (destruct (browsing s) eqn:Hb; [| discriminate];
         apply browsing_inv in Hb; destruct Hb as (Hc & Hl & Hne);
         cbn [fire_ui] in Hfire).
  - (* the list fetch settles *)
    destruct (fetching s) eqn:Hf; [| discriminate]. injection Hfire as <-.
    destruct (Hunl (or_introl (Hfetch eq_refl))) as (Hp & Hi & Hs & Hd & Hu).
    pose proof (Hload (Hfetch eq_refl)) as He.
    unfold load_settle, load_then, load_catch.
    destruct (fetchPlugins r) as [data | message]; cbn [cancelled setFetching];
      destruct (cancelled s); cbn [negb];
      constructor; cbn; auto; try discriminate; try congruence;
      try (rewrite ?Hi; cbn; tauto);
      try (intros [? | ?]; congruence).
  - (* unmount *)
    destruct (cancelled s); [discriminate |]. injection Hfire as <-.
    constructor; cbn; auto.
  - (* click *)
    destruct (nth_error (plugins s) i) as [p |] eqn:Hp; [| discriminate].
    injection Hfire as <-.
    constructor; cbn; auto; try discriminate.
    + intros [? | ?]; [congruence |]. destruct (Hunl (or_intror H)) as (? & _). congruence.
    + intros x [= <-]. apply in_map. eapply nth_error_In; eassumption.
  - (* double click *)
    destruct (nth_error (plugins s) i) as [p |] eqn:Hp; [| discriminate].
    injection Hfire as <-. constructor; cbn; auto.
  - (* key *)
    destruct (handleKeyDown key s) as [s1 |] eqn:Hk; [| discriminate].
    injection Hfire as <-.
    apply handleKeyDown_cases in Hk.
    destruct Hk as [-> | (p & s2 & _ & Hin & -> & Hs2)];
      [constructor; auto |].
    assert (Hidp : In (id p) (map id (plugins s))) by now apply in_map.
    destruct Hs2 as [-> | [-> | (q & ->)]];
      constructor; cbn; auto; try discriminate;
      try (intros x [= <-]; assumption);
      try (intros [? | ?]; [congruence |];
           destruct (Hunl (or_intror H)) as (? & _); congruence).
  - (* view switch *)
    injection Hfire as <-. constructor; cbn; auto.
  - (* icon error *)
    destruct (nth_error (plugins s) i) as [p |]; [| discriminate].
    destruct (existsb (String.eqb (id p)) (iconErrors s)); [discriminate |].
    injection Hfire as <-. constructor; cbn; auto.
  - (* row toggle *)
    destruct (nth_error (plugins s) i) as [p |]; [| discriminate].
    destruct (ViewMode_eqb (viewMode s) details && negb (strict_eq (id p) (updating s)));
      [| discriminate].
    injection Hfire as <-. constructor; cbn; auto.
    + intros [? | ?]; [congruence |]. destruct (Hunl (or_intror H)) as (? & _). congruence.
    + intros c Hin Hc'. apply in_app_or in Hin.
      destruct Hin as [Hin | [<- | []]]; eauto.
    + intros x [= <-].
      exists (mkToggleCall p (detailPlugin s)). split; [| reflexivity].
      apply in_or_app. right. now left.
    + intro E. now apply app_eq_nil in E.
  - (* panel toggle *)
    destruct (detailPlugin s) as [d |] eqn:Hd; [| discriminate].
    destruct (strict_eq (id d) (updating s)); [discriminate |].
    injection Hfire as <-.
    assert (Hsome : selectedId s <> None) by (apply Hpan; congruence).
    constructor; cbn; auto.
    + intros [? | ?]; [congruence |]. destruct (Hunl (or_intror H)) as (? & _). congruence.
    + intros x [= <-].
      exists (mkToggleCall d (detailPlugin s)). split; [| reflexivity].
      apply in_or_app. right. now left.
    + intro E. now apply app_eq_nil in E.
  - (* panel close *)
    destruct (detailPlugin s) as [d |] eqn:Hd; [| discriminate].
    injection Hfire as <-. constructor; cbn; auto; try congruence.
    intros [? | ?]; [congruence |]. destruct (Hunl (or_intror H)) as (? & _). congruence.
  - (* a toggle request settles *)
    destruct (nth_error (inflight s) i) as [c |] eqn:Hc; [| discriminate].
    injection Hfire as <-.
    assert (Hcin : In c (inflight s)) by (eapply nth_error_In; eassumption).
    assert (Hloaded : ~ (loading s = true \/ error s <> None)).
    { intro H. destruct (Hunl H) as (_ & Hi & _). rewrite Hi in Hcin. contradiction. }
    unfold handleToggle_resume.
    destruct (setPluginEnabled _ _ r) as [[] | err];
      [destruct (bound_to (call_detailPlugin c) (call_plugin c)) eqn:Hbound |];
      constructor; cbn; rewrite ?map_id_commit; auto; try discriminate;
      try (intro H; exfalso; apply Hloaded; exact H);
      try (intros c' Hin'; apply In_remove_nth in Hin'; eauto).
    intros _. apply (Hclo c Hcin).
    destruct (call_detailPlugin c); [discriminate | discriminate].
Qed.

Lemma reachable_Inv (s : State) : reachable s -> Inv s.
Proof.
  induction 1 as [v | s s' e _ IH Hfire].
  - apply Inv_mount.
  - eapply Inv_fire; eassumption.
Qed.

Lemma reachable_loaded (vm : ViewMode) : reachable (loaded vm).
Proof.
  apply (reachable_fire (mount vm) _
           (LoadSettled (list_response [beta; alpha]) sample_localeCompare));
    [apply reachable_mount | reflexivity].
Qed.

Lemma idx_of_selected (s : State) (x : string) :
  selectedId s = Some x -> In x (map id (plugins s)) ->
  exists p, index (plugins s) (idx_of s) = Some p /\ id p = x.
Proof.
  intros Hsel Hin. rewrite idx_of_position. unfold Spec.idx. rewrite Hsel.
  destruct (position_In _ _ Hin) as [k Hk]. rewrite Hk.
  apply position_bound in Hk. rewrite index_nth_error.
  rewrite nth_error_map in Hk.
  destruct (nth_error (plugins s) k) as [p |]; [| discriminate].
  exists p. split; [reflexivity |]. cbn in Hk. congruence.
Qed.

(** C9: in a reachable state whose detail panel is open on a plugin of the
    list, Escape closes the panel and leaves [selectedId] as it was. *)
Theorem escape_closes_panel_keeps_selection (s : State) (d : Plugin) :
  reachable s ->
  detailPlugin s = Some d ->
  In (id d) (map id (plugins s)) ->
  exists s',
    handleKeyDown "Escape" s = Return s' /\
    detailPlugin s' = None /\
    selectedId s' = selectedId s.
Proof.
  intros Hreach Hd Hin.
  pose proof (reachable_Inv s Hreach) as HI.
  assert (Hne : plugins s <> []) by (destruct (plugins s); [contradiction | discriminate]).
  destruct (selectedId s) as [x |] eqn:Hsel.
  2: { exfalso. apply (inv_panel s HI); congruence. }
  destruct (idx_of_selected s x Hsel (inv_selected s HI x Hsel)) as (p & Hp & Hid).
  assert (Hk : key_of "Escape" <> Unhandled) by discriminate.
  destruct (handleKeyDown_handled "Escape" s Hne Hk) as (s1 & q & Hrun & Hq & _ & Hs1).
  cbn in Hs1. rewrite Hd in Hs1. subst s1.
  change (newIndex (viewMode s) (key_of "Escape") (idx_of s) (JS.length (plugins s)))
    with (idx_of s) in Hq.
  rewrite Hp in Hq. injection Hq as <-.
  eexists. split; [exact Hrun |]. cbn. split; congruence.
Qed.

Lemma escape_closes_panel_keeps_selection_witness :
  exists s',
    handleKeyDown "Escape" panel_open = Return s' /\
    detailPlugin s' = None /\
    selectedId s' = selectedId panel_open.
Proof.
  apply (escape_closes_panel_keeps_selection panel_open alpha).
  - apply (reachable_fire (loaded icons) _ (Click 0));
      [apply reachable_loaded | reflexivity].
  - reflexivity.
  - vm_compute. auto.
Defined.

(** ** Loading *)

Lemma fetchPlugins_failure (r : FetchResult) (message : string) :
  fetchPlugins r = Throw message ->
  r = Rejected message \/
  (exists statusText body,
     r = Response false statusText body /\
     message = ("Failed to fetch plugins: " ++ statusText)%string) \/
  (exists statusText, r = Response true statusText (NotJson message)).
Proof.
  destruct r as [m | ok statusText body]; cbn.
  - intros [= <-]. now left.
  - destruct ok; cbn.
    + destruct body as [m | [data |]]; try discriminate.
      intros [= <-]. right. right. now exists statusText.
    + intros [= <-]. right. left. now exists statusText, body.
Qed.

Lemma failed_fire (message : string) (s s' : State) (e : Event) :
  failed_with message s -> fire e s = Some s' -> failed_with message s'.
Proof.
  intros (Hf & Hl & He & Hp & Hi) Hfire.
  assert (Hb : browsing s = false).
  { unfold browsing, render. rewrite Hl, Hp, He.
    destruct (truthy (Some message)); cbn; apply andb_false_r. }
  destruct e; cbn [fire] in Hfire; rewrite ?Hb, ?Hf in Hfire; try discriminate.
  - destruct (cancelled s); [discriminate |]. injection Hfire as <-.
    repeat split; assumption.
  - rewrite Hi in Hfire. destruct i; discriminate.
Qed.

Lemma failed_run (message : string) (events : list Event) (s s' : State) :
  failed_with message s -> run events s = Some s' -> failed_with message s'.
Proof.
  revert s. induction events as [| e events IH]; intros s Hs Hrun; cbn in Hrun.
  - now injection Hrun as <-.
  - destruct (fire e s) as [s1 |] eqn:Hfire; [| discriminate].
    eapply IH; [| eassumption]. eapply failed_fire; eassumption.
Qed.

(** X22: when the list fetch of a mounted component fails, [error] becomes the
    thrown error's message, unchanged; loading ends; the list is empty and
    stays empty, with the same error, whatever happens afterwards.  The
    error screen shows that message whenever it is not the empty string,
    which a non-2xx response guarantees. *)
Theorem load_failure_errored
    (localeCompare : string -> string -> Z)
    (s : State) (r : FetchResult) (message : string) :
  reachable s ->
  fetching s = true ->
  cancelled s = false ->
  fetchPlugins r = Throw message ->
  let s' := load_settle localeCompare r s in
  error s' = Some message /\
  loading s' = false /\
  plugins s' = [] /\
  (message <> EmptyString -> render s' = ErrorScreen message) /\
  (forall statusText body,
     r = Response false statusText body ->
     render s' = ErrorScreen ("Failed to fetch plugins: " ++ statusText)%string) /\
  (forall events s'',
     run events s' = Some s'' -> plugins s'' = [] /\ error s'' = Some message).
Proof.
  intros Hreach Hf Hc Hr s'.
  pose proof (reachable_Inv s Hreach) as HI.
  destruct (inv_unloaded s HI (or_introl (inv_fetching s HI Hf)))
    as (Hp & Hi & _).
  assert (Hs' : s' = setLoading false (setError (Some message) (setFetching false s))).
  { unfold s', load_settle, load_catch. rewrite Hr. cbn [cancelled setFetching].
    now rewrite Hc. }
  assert (Hrender : message <> EmptyString -> render s' = ErrorScreen message).
  { intro Hm. rewrite Hs'. unfold render. cbn.
    destruct (String.eqb_spec message EmptyString); [contradiction | reflexivity]. }
  repeat split.
  - now rewrite Hs'.
  - now rewrite Hs'.
  - rewrite Hs'. exact Hp.
  - exact Hrender.
  - intros statusText body ->. cbn in Hr. injection Hr as <-.
    apply Hrender. discriminate.
  - eapply (failed_run message events s' s''); [| eassumption].
    rewrite Hs'. repeat split; assumption.
  - eapply (failed_run message events s' s''); [| eassumption].
    rewrite Hs'. repeat split; assumption.
Qed.

Lemma load_failure_errored_witness :
  let s' := load_settle sample_localeCompare server_error (mount icons) in
  error s' = Some "Failed to fetch plugins: Internal Server Error" /\
  plugins s' = [] /\
  render s' = ErrorScreen "Failed to fetch plugins: Internal Server Error".
Proof.
  destruct (load_failure_errored sample_localeCompare (mount icons) server_error
              "Failed to fetch plugins: Internal Server Error")
    as (He & _ & Hp & Hr & _).
  - apply reachable_mount.
  - reflexivity.
  - reflexivity.
  - reflexivity.
  - intro s'. split; [exact He | split; [exact Hp | apply Hr; discriminate]].
Defined.

(** C7 (the code departs from it): a transport error whose message is the
    empty string.  The fetch of a freshly mounted component is rejected
    with it; [error] becomes that message and the list stays empty, but
    the screen test [if (error)] takes the empty string for no error: the
    view shows the empty-list screen (No plugins installed) and not the
    error screen, whatever the collation and the view mode. *)
Theorem empty_error_message_shows_empty_screen :
  forall (localeCompare : string -> string -> Z) (vm : ViewMode),
    let s' := load_settle localeCompare (Rejected EmptyString) (mount vm) in
    fire (LoadSettled (Rejected EmptyString) localeCompare) (mount vm) = Some s' /\
    error s' = Some EmptyString /\
    loading s' = false /\
    plugins s' = [] /\
    render s' = EmptyScreen /\
    render s' <> ErrorScreen EmptyString.
Proof.
  intros localeCompare vm. cbn. repeat split. discriminate.
Qed.

Lemma abandoned_fire (s s' : State) (e : Event) :
  abandoned s -> fire e s = Some s' -> abandoned s'.
Proof.
  intros (Hc & Hl & He & Hp & Hi) Hfire.
  assert (Hb : browsing s = false) by (unfold browsing; now rewrite Hc).
  destruct e; cbn [fire] in Hfire; rewrite ?Hb, ?Hc in Hfire; try discriminate.
  - destruct (fetching s); [| discriminate]. injection Hfire as <-.
    unfold load_settle, load_then, load_catch.
    destruct (fetchPlugins r); cbn [cancelled setFetching]; rewrite Hc; cbn;
      repeat split; assumption.
  - rewrite Hi in Hfire. destruct i; discriminate.
Qed.

Lemma abandoned_run (events : list Event) (s s' : State) :
  abandoned s -> run events s = Some s' -> abandoned s'.
Proof.
  revert s. induction events as [| e events IH]; intros s Hs Hrun; cbn in Hrun.
  - now injection Hrun as <-.
  - destruct (fire e s) as [s1 |] eqn:Hfire; [| discriminate].
    eapply IH; [| eassumption]. eapply abandoned_fire; eassumption.
Qed.

(** C8: once [cancelled] is set, a settling list fetch changes no state
    variable, whether it succeeded or failed; and if the component is
    unmounted while the fetch is pending, the list, [loading] and [error]
    keep their values through everything that happens afterwards. *)
Theorem unmount_discards_load
    (localeCompare : string -> string -> Z)
    (s : State) (r : FetchResult) (events : list Event) (s' : State) :
  (cancelled s = true -> load_settle localeCompare r s = setFetching false s) /\
  (reachable s -> fetching s = true ->
   run (Unmount :: events) s = Some s' ->
   plugins s' = plugins s /\ loading s' = loading s /\ error s' = error s).
Proof.
  split.
  - intro Hc. unfold load_settle, load_then, load_catch.
    destruct (fetchPlugins r); cbn [cancelled setFetching]; now rewrite Hc.
  - intros Hreach Hf Hrun.
    pose proof (reachable_Inv s Hreach) as HI.
    pose proof (inv_fetching s HI Hf) as Hl.
    pose proof (inv_loading s HI Hl) as He.
    destruct (inv_unloaded s HI (or_introl Hl)) as (Hp & Hi & _).
    cbn [run fire] in Hrun.
    destruct (cancelled s) eqn:Hc; [discriminate |].
    assert (Hab : abandoned (unmount s)) by (repeat split; assumption).
    destruct (abandoned_run events _ s' Hab Hrun) as (_ & Hl' & He' & Hp' & _).
    repeat split; congruence.
Qed.

Lemma unmount_discards_load_witness :
  let late := list_response [beta; alpha] in
  load_settle sample_localeCompare late (unmount (mount icons))
  = setFetching false (unmount (mount icons)) /\
  exists s',
    run [Unmount; LoadSettled late sample_localeCompare] (mount icons) = Some s' /\
    plugins s' = [] /\ loading s' = true /\ error s' = None.
Proof.
  split.
  - apply (unmount_discards_load sample_localeCompare
             (unmount (mount icons)) _ [] (mount icons)).
    reflexivity.
  - eexists. split; [reflexivity |].
    apply (unmount_discards_load sample_localeCompare (mount icons) ok_response
             [LoadSettled (list_response [beta; alpha]) sample_localeCompare]);
      [apply reachable_mount | reflexivity | reflexivity].
Defined.

(** ** Toggling *)

Lemma handleToggle_resume_frame (c : ToggleCall) (r : FetchResult) (s : State) :
  let s' := handleToggle_resume c r s in
  updating s' = None /\ inflight s' = inflight s /\
  loading s' = loading s /\ error s' = error s /\
  selectedId s' = selectedId s /\ viewMode s' = viewMode s /\
  iconErrors s' = iconErrors s /\ dispatched s' = dispatched s /\
  cancelled s' = cancelled s /\ fetching s' = fetching s.
Proof.
  unfold handleToggle_resume.
  destruct (setPluginEnabled _ _ r) as [[] | err];
    [destruct (bound_to (call_detailPlugin c) (call_plugin c)) |];
    cbn; repeat split; reflexivity.
Qed.

Lemma handleToggle_resume_success (c : ToggleCall) (r : FetchResult) (s : State) :
  setPluginEnabled (id (call_plugin c)) (negb (enabled (call_plugin c))) r = Return tt ->
  let plugin := call_plugin c in
  let desired := negb (enabled plugin) in
  let s' := handleToggle_resume c r s in
  plugins s' = map (commit plugin desired) (plugins s) /\
  console s' = console s /\
  detailPlugin s' =
    (if bound_to (call_detailPlugin c) plugin
     then Some (with_enabled plugin desired)
     else detailPlugin s).
Proof.
  intro Hok. unfold handleToggle_resume. rewrite Hok.
  destruct (bound_to (call_detailPlugin c) (call_plugin c)); cbn; auto.
Qed.

Lemma handleToggle_resume_failure
    (c : ToggleCall) (r : FetchResult) (err : string) (s : State) :
  setPluginEnabled (id (call_plugin c)) (negb (enabled (call_plugin c))) r = Throw err ->
  let s' := handleToggle_resume c r s in
  plugins s' = plugins s /\
  detailPlugin s' = detailPlugin s /\
  console s' = (console s ++ [("Failed to update plugin: " ++ err)%string])%list.
Proof.
  intro Hko. unfold handleToggle_resume. rewrite Hko. cbn. auto.
Qed.

(** C6: a settling toggle request is consumed once, leaves [updating]
    cleared and every variable but the list, the panel and the console as
    it was, and either commits (on success) or leaves the list and the
    panel untouched and logs the error (on failure); a call that fails
    with nothing in between restores the state it was issued in, up to
    [updating] and the console. *)
Theorem toggle_commits_or_leaves
    (s s' : State) (i : nat) (r : FetchResult) :
  fire (ToggleSettled i r) s = Some s' ->
  exists c,
    nth_error (inflight s) i = Some c /\
    inflight s' = remove_nth i (inflight s) /\
    updating s' = None /\
    loading s' = loading s /\ error s' = error s /\
    selectedId s' = selectedId s /\ viewMode s' = viewMode s /\
    match setPluginEnabled (id (call_plugin c)) (negb (enabled (call_plugin c))) r with
    | Return _ =>
        plugins s' =
          map (commit (call_plugin c) (negb (enabled (call_plugin c)))) (plugins s) /\
        console s' = console s
    | Throw err =>
        plugins s' = plugins s /\
        detailPlugin s' = detailPlugin s /\
        console s' = (console s ++ [("Failed to update plugin: " ++ err)%string])%list /\
        (forall s0, s = handleToggle_call (call_plugin c) s0 ->
                    i = List.length (inflight s0) ->
                    plugins s' = plugins s0 /\ inflight s' = inflight s0 /\
                    detailPlugin s' = detailPlugin s0)
    end.
Proof.
  cbn [fire]. intro Hfire.
  destruct (nth_error (inflight s) i) as [c |] eqn:Hc; [| discriminate].
  injection Hfire as <-. exists c.
  destruct (handleToggle_resume_frame c r (setInflight (remove_nth i) s))
    as (Hu & Hi & Hl & He & Hs & Hv & _).
  repeat (split; [assumption || reflexivity |]).
  destruct (setPluginEnabled _ _ r) as [[] | err] eqn:Hr.
  - destruct (handleToggle_resume_success c r (setInflight (remove_nth i) s) Hr)
      as (Hp & Hco & _).
    split; assumption.
  - destruct (handleToggle_resume_failure c r err (setInflight (remove_nth i) s) Hr)
      as (Hp & Hd & Hco).
    repeat (split; [assumption |]).
    intros s0 -> ->. rewrite Hp, Hi, Hd. cbn.
    repeat split; try reflexivity.
    clear. induction (inflight s0) as [| x l IH]; cbn; [reflexivity | now rewrite IH].
Qed.

Lemma toggle_commits_or_leaves_witness :
  exists s',
    fire (ToggleSettled 0 server_error) toggling_alpha = Some s' /\
    plugins s' = plugins (loaded details) /\
    updating s' = None /\
    inflight s' = [].
Proof.
  destruct (fire (ToggleSettled 0 server_error) toggling_alpha) as [s' |] eqn:Hfire;
    [| vm_compute in Hfire; discriminate].
  exists s'. split; [reflexivity |].
  destruct (toggle_commits_or_leaves toggling_alpha s' 0 server_error Hfire)
    as (c & Hc & _ & Hu & _ & _ & _ & _ & Hm).
  vm_compute in Hc. injection Hc as <-.
  cbn in Hm. destruct Hm as (_ & _ & _ & Hseq).
  destruct (Hseq (loaded details) eq_refl eq_refl) as (Hp & Hi & _).
  repeat split; assumption.
Defined.

Lemma commit_same (plugin p : Plugin) (b : bool) :
  id p = id plugin -> commit plugin b p = with_enabled p b.
Proof. intro E. unfold commit. rewrite E. now rewrite String.eqb_refl. Qed.

Lemma commit_other (plugin p : Plugin) (b : bool) :
  id p <> id plugin -> commit plugin b p = p.
Proof.
  intro E. unfold commit. now destruct (String.eqb_spec (id p) (id plugin)).
Qed.

(** What a successful toggle does commit: the flag of the records with the
    toggled id, every other record as it was, and the panel copy when the
    panel was bound to that id as the handler was called. *)
Lemma handleToggle_success_commit
    (X : Plugin) (called_in s : State) (r : FetchResult) :
  setPluginEnabled (id X) (negb (enabled X)) r = Return tt ->
  let desired := negb (enabled X) in
  let s' := handleToggle_resume (mkToggleCall X (detailPlugin called_in)) r s in
  (forall i p, nth_error (plugins s) i = Some p ->
     nth_error (plugins s') i =
       Some (if String.eqb (id p) (id X) then with_enabled p desired else p)) /\
  List.length (plugins s') = List.length (plugins s) /\
  fetching s' = fetching s /\
  (bound_to (detailPlugin called_in) X = true ->
   detailPlugin s' = Some (with_enabled X desired)).
Proof.
  intros Hok desired s'.
  destruct (handleToggle_resume_success (mkToggleCall X (detailPlugin called_in)) r s Hok)
    as (Hp & _ & Hd).
  destruct (handleToggle_resume_frame (mkToggleCall X (detailPlugin called_in)) r s)
    as (_ & _ & _ & _ & _ & _ & _ & _ & _ & Hf).
  cbn [call_plugin call_detailPlugin] in *. fold s' in Hp, Hd, Hf.
  repeat split.
  - intros i p Hi. rewrite Hp, nth_error_map, Hi. reflexivity.
  - rewrite Hp. apply length_map.
  - exact Hf.
  - intro Hb. now rewrite Hb in Hd.
Qed.

(** C5 (the code departs from it): in the details view the checkbox of
    [alpha] is clicked while the panel is closed; the click also selects
    the row, which binds the panel to [alpha]; when the request succeeds
    the list holds [alpha] enabled, but the panel, bound to [alpha], still
    holds the copy with [enabled = false]. *)
Theorem panel_copy_left_stale :
  exists s',
    run checkbox_click (loaded details) = Some s' /\
    plugins s' = [with_enabled alpha true; beta] /\
    detailPlugin s' = Some alpha /\
    enabled alpha = false.
Proof. eexists. repeat split. Qed.

(** *** The toggle and load scenarios of the specification *)

Example scenario_C :
  option_map (fun s => (plugins s, updating s))
    (run [ToggleRow 1; ToggleSettled 0 ok_response] (loaded details))
  = Some ([alpha; with_enabled beta true], None).
Proof. reflexivity. Qed.

Example scenario_D :
  let s := load_settle sample_localeCompare (Rejected "Failed to fetch") (mount icons) in
  render s = ErrorScreen "Failed to fetch" /\ plugins s = [].
Proof. split; reflexivity. Qed.

(** The mark of a pending call is cleared by another call that settles. *)
Example mark_cleared_by_other_call :
  option_map (fun s => (map (fun c => id (call_plugin c)) (inflight s), updating s))
    (run [ToggleRow 0; ToggleRow 1; ToggleSettled 0 ok_response] (loaded details))
  = Some (["b"], None).
Proof. reflexivity. Qed.

(** ** Sorting *)

Section SortFacts.
Context {A : Type}.
Variable compareFn : A -> A -> Z.
Hypothesis compareFn_total : forall a b, 0 < compareFn a b -> compareFn b a <= 0.

Let le (a b : A) : Prop := compareFn a b <= 0.

Lemma insert_perm (x : A) (l : list A) : Permutation (x :: l) (insert compareFn x l).
Proof.
  induction l as [| y l IH]; cbn; [reflexivity |].
  destruct (compareFn x y <=? 0); [reflexivity |].
  rewrite perm_swap. now apply perm_skip.
Qed.

Lemma sort_perm (l : list A) : Permutation l (sort compareFn l).
Proof.
  induction l as [| x l IH]; cbn; [constructor |].
  rewrite <- insert_perm. now apply perm_skip.
Qed.

Lemma insert_HdRel (a x : A) (l : list A) :
  le a x -> HdRel le a l -> HdRel le a (insert compareFn x l).
Proof.
  intros Hax Hl. destruct l as [| y l]; cbn; [now constructor |].
  destruct (compareFn x y <=? 0); constructor; [assumption |].
  now inversion Hl.
Qed.

Lemma insert_sorted (x : A) (l : list A) :
  Sorted le l -> Sorted le (insert compareFn x l).
Proof.
  induction 1 as [| y l Hs IH Hhd]; cbn.
  - repeat constructor.
  - destruct (Z.leb_spec (compareFn x y) 0) as [Hxy | Hxy].
    + repeat constructor; assumption.
    + constructor; [exact IH |].
      apply insert_HdRel; [| exact Hhd]. now apply compareFn_total.
Qed.

Lemma sort_sorted (l : list A) : Sorted le (sort compareFn l).
Proof.
  induction l as [| x l IH]; cbn; [constructor | now apply insert_sorted].
Qed.

End SortFacts.

(** ** The order of names *)

Lemma ascii_compare_lt_trans (a b c : ascii) :
  Ascii.compare a b = Lt -> Ascii.compare b c = Lt -> Ascii.compare a c = Lt.
Proof.
  unfold Ascii.compare. rewrite !N.compare_lt_iff. lia.
Qed.

Lemma ascii_compare_refl (a : ascii) : Ascii.compare a a = Eq.
Proof. apply N.compare_refl. Qed.

Lemma string_compare_refl (x : string) : String.compare x x = Eq.
Proof.
  induction x as [| a x IH]; cbn; [reflexivity |].
  now rewrite ascii_compare_refl.
Qed.

Lemma string_compare_lt_trans (x y z : string) :
  String.compare x y = Lt -> String.compare y z = Lt -> String.compare x z = Lt.
Proof.
  revert y z. induction x as [| a x IH]; intros [| b y] [| c z]; cbn;
    try discriminate; try reflexivity.
  destruct (Ascii.compare a b) eqn:Hab; try discriminate;
    destruct (Ascii.compare b c) eqn:Hbc; try discriminate; intros Hxy Hyz.
  - apply Ascii.compare_eq_iff in Hab, Hbc. subst.
    rewrite ascii_compare_refl.
    eapply IH; eassumption.
  - apply Ascii.compare_eq_iff in Hab. subst. now rewrite Hbc.
  - apply Ascii.compare_eq_iff in Hbc. subst. now rewrite Hab.
  - now rewrite (ascii_compare_lt_trans a b c).
Qed.

(** Of two names one does not exceed the other, and not exceeding is
    transitive. *)
Lemma consistent_total (localeCompare : string -> string -> Z) (a b : string) :
  consistent localeCompare -> 0 < localeCompare a b -> localeCompare b a <= 0.
Proof.
  intros (Hrefl & _ & _ & _ & Hgt) Hab.
  destruct (Z.le_gt_cases (localeCompare b a) 0) as [H | H]; [exact H |].
  pose proof (Hgt a b a Hab H) as Haa. rewrite Hrefl in Haa. lia.
Qed.

Lemma consistent_after (localeCompare : string -> string -> Z) (a b : string) :
  consistent localeCompare -> 0 < localeCompare a b -> localeCompare b a < 0.
Proof.
  intros Hc Hab. pose proof (consistent_total _ a b Hc Hab) as Hle.
  destruct Hc as (_ & Hsym & _).
  destruct (Z.eq_dec (localeCompare b a) 0) as [E | E]; [| lia].
  apply Hsym in E. lia.
Qed.

Lemma consistent_le_trans (localeCompare : string -> string -> Z) (a b c : string) :
  consistent localeCompare ->
  localeCompare a b <= 0 -> localeCompare b c <= 0 -> localeCompare a c <= 0.
Proof.
  intros Hc Hab Hbc.
  destruct (Z.le_gt_cases (localeCompare a c) 0) as [H | Hac]; [exact H |].
  pose proof (consistent_after _ a c Hc Hac) as Hca.
  destruct Hc as (_ & Hsym & Heq & Hlt & _).
  destruct (Z.eq_dec (localeCompare a b) 0) as [Eab | Eab];
    destruct (Z.eq_dec (localeCompare b c) 0) as [Ebc | Ebc].
  - pose proof (Heq a b c Eab Ebc). lia.
  - assert (Hba : localeCompare b a < 0) by (apply (Hlt b c a); lia).
    apply Hsym in Eab. lia.
  - assert (Hcb : localeCompare c b < 0) by (apply (Hlt c a b); lia).
    apply Hsym in Ebc. lia.
  - assert (localeCompare a c < 0) by (apply (Hlt a b c); lia). lia.
Qed.

Lemma lex_compare_Eq (f g : string -> string) (a b : string) :
  lex_compare f g a b = Eq <-> f a = f b /\ g a = g b.
Proof.
  unfold lex_compare. split.
  - destruct (String.compare (f a) (f b)) eqn:E; try discriminate.
    intro Hg. apply String.compare_eq_iff in E, Hg. auto.
  - intros (-> & ->). now rewrite !string_compare_refl.
Qed.

Lemma lex_compare_antisym (f g : string -> string) (a b : string) :
  lex_compare f g b a = CompOpp (lex_compare f g a b).
Proof.
  unfold lex_compare.
  rewrite (String.compare_antisym (f a) (f b)).
  rewrite (String.compare_antisym (g a) (g b)).
  destruct (String.compare (f b) (f a)); cbn; [| reflexivity | reflexivity].
  now destruct (String.compare (g b) (g a)).
Qed.

Lemma lex_compare_lt_trans (f g : string -> string) (a b c : string) :
  lex_compare f g a b = Lt -> lex_compare f g b c = Lt -> lex_compare f g a c = Lt.
Proof.
  unfold lex_compare.
  destruct (String.compare (f a) (f b)) eqn:Eab; try discriminate;
    destruct (String.compare (f b) (f c)) eqn:Ebc; try discriminate.
  - apply String.compare_eq_iff in Eab, Ebc. rewrite Eab, Ebc.
    rewrite string_compare_refl. apply string_compare_lt_trans.
  - apply String.compare_eq_iff in Eab. now rewrite Eab, Ebc.
  - apply String.compare_eq_iff in Ebc. now rewrite <- Ebc, Eab.
  - now rewrite (string_compare_lt_trans _ _ _ Eab Ebc).
Qed.

Lemma sign_cases (c : comparison) :
  (sign c = 0 <-> c = Eq) /\ (sign c < 0 <-> c = Lt) /\ (0 < sign c <-> c = Gt).
Proof. destruct c; cbn; repeat split; intros; try lia; congruence. Qed.

Lemma lex_compare_consistent (f g : string -> string) :
  consistent (fun a b => sign (lex_compare f g a b)).
Proof.
  repeat split.
  - intro a. apply sign_cases. now apply lex_compare_Eq.
  - intros a b. rewrite !(proj1 (sign_cases _)), !lex_compare_Eq.
    intros (-> & ->). auto.
  - intros a b c. rewrite !(proj1 (sign_cases _)), !lex_compare_Eq.
    intros (-> & ->) (-> & ->). auto.
  - intros a b c. rewrite !(proj1 (proj2 (sign_cases _))).
    apply lex_compare_lt_trans.
  - intros a b c. rewrite !(proj2 (proj2 (sign_cases _))).
    intros Hab Hbc.
    rewrite (lex_compare_antisym f g c a).
    rewrite (lex_compare_lt_trans f g c b a); [reflexivity | |].
    + rewrite (lex_compare_antisym f g b c), Hbc. reflexivity.
    + rewrite (lex_compare_antisym f g a b), Hab. reflexivity.
Qed.

Lemma sample_localeCompare_consistent : consistent sample_localeCompare.
Proof. exact (lex_compare_consistent fold_case case_key). Qed.

Lemma punctuation_first_consistent : consistent punctuation_first.
Proof. exact (lex_compare_consistent rank_key case_key). Qed.

Lemma sort_ascending (localeCompare : string -> string -> Z) (data : list Plugin) :
  consistent localeCompare ->
  ascending localeCompare (sort (fun a b => localeCompare (name a) (name b)) data).
Proof.
  intro Hc. apply Sorted_StronglySorted.
  - intros a b c. now apply consistent_le_trans.
  - apply sort_sorted. intros a b. now apply consistent_total.
Qed.

Lemma erase_commit (plugin : Plugin) (b : bool) (l : list Plugin) :
  map erase (map (commit plugin b) l) = map erase l.
Proof.
  rewrite map_map. apply map_ext. intro p. unfold commit.
  now destruct (String.eqb (id p) (id plugin)).
Qed.

(** An order on names does not see the [enabled] flags. *)
Lemma erase_sorted (R : string -> string -> Prop) (l l' : list Plugin) :
  map erase l' = map erase l ->
  StronglySorted (fun a b => R (name a) (name b)) l ->
  StronglySorted (fun a b => R (name a) (name b)) l'.
Proof.
  intro E.
  assert (Hn : map name l' = map name l).
  { apply (f_equal (map name)) in E. now rewrite !map_map in E. }
  clear E. revert l' Hn.
  induction l as [| p l IH]; intros [| q l'] Hn Hs; try discriminate; [constructor |].
  cbn in Hn. injection Hn as Hq Hl. inversion Hs as [| ? ? Hs' Hall]; subst.
  constructor; [now apply IH |].
  rewrite Forall_forall in *. intros y Hy.
  apply (in_map name) in Hy. rewrite Hl in Hy.
  apply in_map_iff in Hy. destruct Hy as (z & Hz & Hin).
  rewrite Hq, <- Hz. now apply Hall.
Qed.

(** Only the load may change the list beyond the [enabled] flags. *)
Lemma fire_erase (s s' : State) (e : Event) :
  fetching s = false -> fire e s = Some s' ->
  map erase (plugins s') = map erase (plugins s) /\ fetching s' = false.
Proof.
  intros Hf Hfire.
  destruct e; cbn [fire] in Hfire; rewrite ?Hf in Hfire; try discriminate;
    try (destruct (browsing s); [| discriminate]; cbn [fire_ui] in Hfire).
  - destruct (cancelled s); [discriminate |]. injection Hfire as <-. auto.
  - destruct (nth_error (plugins s) i); [| discriminate]. injection Hfire as <-. auto.
  - destruct (nth_error (plugins s) i); [| discriminate]. injection Hfire as <-. auto.
  - destruct (handleKeyDown key s) as [s1 |] eqn:Hk; [| discriminate].
    injection Hfire as <-. apply handleKeyDown_cases in Hk.
    destruct Hk as [-> | (p & s2 & _ & _ & -> & [-> | [-> | (q & ->)]])]; auto.
  - injection Hfire as <-. auto.
  - destruct (nth_error (plugins s) i) as [p |]; [| discriminate].
    destruct (existsb _ _); [discriminate |]. injection Hfire as <-. auto.
  - destruct (nth_error (plugins s) i) as [p |]; [| discriminate].
    destruct (_ && _); [| discriminate]. injection Hfire as <-. auto.
  - destruct (detailPlugin s) as [d |]; [| discriminate].
    destruct (strict_eq _ _); [discriminate |]. injection Hfire as <-. auto.
  - destruct (detailPlugin s) as [d |]; [| discriminate]. injection Hfire as <-. auto.
  - destruct (nth_error (inflight s) i) as [c |]; [| discriminate].
    injection Hfire as <-. unfold handleToggle_resume.
    destruct (setPluginEnabled _ _ r) as [[] | err];
      [destruct (bound_to _ _) |]; cbn; rewrite ?map_map; split; auto;
      apply map_ext; intro p;
      now destruct (String.eqb (id p) (id (call_plugin c))).
Qed.

Lemma run_erase (events : list Event) (s s' : State) :
  fetching s = false -> run events s = Some s' ->
  map erase (plugins s') = map erase (plugins s).
Proof.
  revert s. induction events as [| e events IH]; intros s Hf Hrun; cbn in Hrun.
  - now injection Hrun as <-.
  - destruct (fire e s) as [s1 |] eqn:Hfire; [| discriminate].
    destruct (fire_erase s s1 e Hf Hfire) as (E & Hf1).
    rewrite <- E. now apply IH.
Qed.

(** The sample collation on names that differ in case and in letters: case
    only breaks ties. *)
Example sort_mixed_case :
  map name (sort (fun a b => sample_localeCompare (name a) (name b)) mixed_case)
  = ["alpha"; "Alpha"; "beta"; "Beta"].
Proof. reflexivity. Qed.

(** C2 (as stated, refuted): the order after the load is that of
    [localeCompare], which is not case-insensitive comparison of the
    characters.  Under a collation that puts punctuation before letters,
    the plugins named zeta and {core} are loaded with {core} first, while
    in case-insensitive lexicographic order zeta comes first (z has code
    122, the brace 123, and Z 90), so the loaded list is not ascending in
    that order.  The collation used is consistent, as the sort asks. *)
Lemma collation_is_not_code_unit_order :
  let s := load_settle punctuation_first (list_response [zeta; core]) (mount icons) in
  consistent punctuation_first /\
  fire (LoadSettled (list_response [zeta; core]) punctuation_first) (mount icons)
  = Some s /\
  map name (plugins s) = ["{core}"; "zeta"] /\
  ci_le "zeta" "{core}" /\
  ~ ci_le "{core}" "zeta" /\
  ~ StronglySorted by_name_ci (plugins s).
Proof.
  cbv zeta. split; [exact punctuation_first_consistent |].
  split; [reflexivity |]. split; [reflexivity |].
  split; [vm_compute; discriminate |].
  assert (Hn : ~ ci_le "{core}" "zeta") by (vm_compute; intro H; now apply H).
  split; [exact Hn |].
  intro Hs. change (plugins _) with [core; zeta] in Hs.
  inversion Hs as [| ? ? _ Hall]; subst.
  inversion Hall as [| ? ? Hcz _]; subst. exact (Hn Hcz).
Qed.

(** C2 (amended): for every consistent collation the platform may supply as
    [localeCompare], a successful load of a mounted component installs the
    fetched plugins sorted by it: the list is the stable sort of the data,
    a permutation of the data, ascending by name under that collation.
    From then on nothing that happens (toggles included) changes the list
    except for [enabled] flags, so the order stays. *)
Theorem load_order_by_collation_and_stable
    (localeCompare : string -> string -> Z)
    (s : State) (r : FetchResult) (data : list Plugin) :
  consistent localeCompare ->
  fetching s = true ->
  cancelled s = false ->
  fetchPlugins r = Return data ->
  let s0 := load_settle localeCompare r s in
  fire (LoadSettled r localeCompare) s = Some s0 /\
  plugins s0 = sort (fun a b => localeCompare (name a) (name b)) data /\
  Permutation data (plugins s0) /\
  ascending localeCompare (plugins s0) /\
  (forall events s',
     run events s0 = Some s' ->
     map erase (plugins s') = map erase (plugins s0) /\
     ascending localeCompare (plugins s')).
Proof.
  intros Hcons Hf Hc Hr s0.
  assert (E : plugins s0 = sort (fun a b => localeCompare (name a) (name b)) data).
  { unfold s0, load_settle, load_then. rewrite Hr. cbn [cancelled setFetching].
    now rewrite Hc. }
  assert (Hs0 : fetching s0 = false).
  { unfold s0, load_settle, load_then. rewrite Hr. cbn [cancelled setFetching].
    now rewrite Hc. }
  assert (Ha : ascending localeCompare (plugins s0)).
  { rewrite E. now apply sort_ascending. }
  split; [cbn [fire]; now rewrite Hf |].
  split; [exact E |].
  split; [rewrite E; apply sort_perm |].
  split; [exact Ha |].
  intros events s' Hrun.
  pose proof (run_erase events s0 s' Hs0 Hrun) as He.
  split; [exact He |].
  exact (erase_sorted (fun a b => localeCompare a b <= 0) _ _ He Ha).
Qed.

Lemma load_order_by_collation_and_stable_witness :
  let s0 := load_settle sample_localeCompare (list_response mixed_case) (mount details) in
  map name (plugins s0) = ["alpha"; "Alpha"; "beta"; "Beta"] /\
  Permutation mixed_case (plugins s0) /\
  ascending sample_localeCompare (plugins s0) /\
  exists s',
    run [ToggleRow 1; ToggleSettled 0 ok_response] s0 = Some s' /\
    map enabled (plugins s') = [false; false; true; false] /\
    map erase (plugins s') = map erase (plugins s0) /\
    ascending sample_localeCompare (plugins s').
Proof.
  destruct (load_order_by_collation_and_stable sample_localeCompare
              (mount details) (list_response mixed_case) mixed_case
              sample_localeCompare_consistent eq_refl eq_refl eq_refl)
    as (_ & E & Hperm & Hasc & Hstable).
  split; [rewrite E; reflexivity |].
  split; [exact Hperm |].
  split; [exact Hasc |].
  eexists. split; [reflexivity |]. split; [reflexivity |].
  apply (Hstable [ToggleRow 1%nat; ToggleSettled 0%nat ok_response]).
  reflexivity.
Defined.

(** ** The in-flight guard *)

Lemma strict_eq_false (x : string) (u : option string) :
  strict_eq x u = false <-> u <> Some x.
Proof.
  destruct u as [y |]; cbn; [| split; [discriminate | reflexivity]].
  destruct (String.eqb_spec x y); split; congruence.
Qed.

Lemma fire_ToggleRow (s s' : State) (i : nat) :
  fire (ToggleRow i) s = Some s' ->
  exists p,
    nth_error (plugins s) i = Some p /\ viewMode s = details /\
    updating s <> Some (id p) /\ s' = handleToggle_call p s.
Proof.
  cbn [fire]. destruct (browsing s); [| discriminate]. cbn [fire_ui].
  destruct (nth_error (plugins s) i) as [p |]; [| discriminate].
  destruct (ViewMode_eqb (viewMode s) details) eqn:Hv; [| discriminate].
  destruct (strict_eq (id p) (updating s)) eqn:Hu; [discriminate |].
  cbn. intros [= <-]. exists p. repeat split.
  - now destruct (viewMode s).
  - now apply strict_eq_false.
Qed.

Lemma fire_TogglePanel (s s' : State) :
  fire TogglePanel s = Some s' ->
  exists p,
    detailPlugin s = Some p /\
    updating s <> Some (id p) /\ s' = handleToggle_call p s.
Proof.
  cbn [fire]. destruct (browsing s); [| discriminate]. cbn [fire_ui].
  destruct (detailPlugin s) as [p |]; [| discriminate].
  destruct (strict_eq (id p) (updating s)) eqn:Hu; [discriminate |].
  intros [= <-]. exists p. repeat split. now apply strict_eq_false.
Qed.

Lemma pending_for_call (p : Plugin) (s : State) :
  pending_for (id p) (handleToggle_call p s) = S (pending_for (id p) s).
Proof.
  unfold pending_for. cbn. rewrite filter_app, length_app. cbn.
  rewrite String.eqb_refl. cbn. lia.
Qed.

Lemma pending_for_In (x : string) (s : State) (c : ToggleCall) :
  In c (inflight s) -> id (call_plugin c) = x -> (0 < pending_for x s)%nat.
Proof.
  intros Hin Hid. unfold pending_for.
  assert (Hf : In c (filter (fun c => String.eqb (id (call_plugin c)) x) (inflight s))).
  { apply filter_In. split; [assumption |]. rewrite Hid. apply String.eqb_refl. }
  destruct (filter _ _); [contradiction | cbn; lia].
Qed.

Lemma nth_error_after {A : Type} (l r : list A) (k : nat) :
  nth_error (l ++ r) (List.length l + k) = nth_error r k.
Proof. induction l as [| x l IH]; cbn; auto. Qed.

Lemma remove_nth_after {A : Type} (l r : list A) (k : nat) :
  remove_nth (List.length l + k) (l ++ r) = (l ++ remove_nth k r)%list.
Proof. induction l as [| x l IH]; cbn; [reflexivity | now rewrite IH]. Qed.

Lemma commit_commute (a b : Plugin) (ea eb : bool) (p : Plugin) :
  id a <> id b ->
  commit a ea (commit b eb p) = commit b eb (commit a ea p).
Proof.
  intro Hab. unfold commit.
  destruct (String.eqb_spec (id p) (id a)) as [Ea | Ea];
    destruct (String.eqb_spec (id p) (id b)) as [Eb | Eb]; cbn.
  - congruence.
  - destruct (String.eqb_spec (id p) (id a)); [| congruence].
    destruct (String.eqb_spec (id p) (id b)); [congruence | reflexivity].
  - destruct (String.eqb_spec (id p) (id a)); [congruence |].
    destruct (String.eqb_spec (id p) (id b)); [reflexivity | congruence].
  - destruct (String.eqb_spec (id p) (id a)); [congruence |].
    destruct (String.eqb_spec (id p) (id b)); [congruence | reflexivity].
Qed.

(** C1 (the code departs from it): in the details view with two plugins
    loaded, the checkbox of the first, then of the second, then of the
    first again is clicked before any request settles.  The single
    [updating] slot names the second plugin after the second click, so the
    first checkbox is enabled again: after the three clicks, two calls for
    ["a"] are in flight at once, and the call for ["b"] is pending although
    the mark names ["a"]. *)
Lemma overlapping_toggles_escape_guard :
  exists s,
    run three_clicks (loaded details) = Some s /\
    reachable s /\
    ~ one_call_per_id s /\
    ~ marked_while_pending s.
Proof.
  destruct (run three_clicks (loaded details)) as [s |] eqn:Hrun;
    [| vm_compute in Hrun; discriminate].
  exists s. split; [reflexivity |].
  split; [exact (run_reachable _ _ _ (reachable_loaded details) Hrun) |].
  vm_compute in Hrun. injection Hrun as <-. split.
  - intro H. specialize (H "a"). vm_compute in H. lia.
  - intro H. specialize (H "b"). vm_compute in H.
    assert (E : Some "a" = Some "b") by (apply H; lia). discriminate.
Qed.

Lemma browsing_call (p : Plugin) (s : State) :
  browsing (handleToggle_call p s) = browsing s.
Proof. reflexivity. Qed.

Lemma fire_row_enabled (s : State) (i : nat) (p : Plugin) :
  browsing s = true -> viewMode s = details ->
  nth_error (plugins s) i = Some p -> updating s <> Some (id p) ->
  fire (ToggleRow i) s = Some (handleToggle_call p s).
Proof.
  intros Hb Hv Hp Hu. cbn [fire]. rewrite Hb. cbn [fire_ui]. rewrite Hp, Hv.
  apply strict_eq_false in Hu. now rewrite Hu.
Qed.

Lemma fire_settled_at (s : State) (l r : list ToggleCall) (c : ToggleCall) (reply : FetchResult) :
  inflight s = (l ++ c :: r)%list ->
  fire (ToggleSettled (List.length l) reply) s
  = Some (handleToggle_resume c reply (setInflight (fun _ => l ++ r)%list s)).
Proof.
  intro Hi. cbn [fire].
  replace (List.length l) with (List.length l + 0)%nat by lia.
  rewrite Hi, nth_error_after. cbn [nth_error].
  do 2 f_equal. unfold setInflight. rewrite Hi, remove_nth_after. reflexivity.
Qed.

Lemma settle_success
    (s : State) (l r : list ToggleCall) (c : ToggleCall) (reply : FetchResult) :
  inflight s = (l ++ c :: r)%list ->
  setPluginEnabled (id (call_plugin c)) (negb (enabled (call_plugin c))) reply = Return tt ->
  exists s',
    fire (ToggleSettled (List.length l) reply) s = Some s' /\
    plugins s' = map (commit (call_plugin c) (negb (enabled (call_plugin c)))) (plugins s) /\
    inflight s' = (l ++ r)%list /\
    updating s' = None.
Proof.
  intros Hi Hok. rewrite (fire_settled_at s l r c reply Hi).
  eexists. split; [reflexivity |].
  destruct (handleToggle_resume_frame c reply (setInflight (fun _ => (l ++ r)%list) s))
    as (Hu & Hi' & _).
  destruct (handleToggle_resume_success c reply (setInflight (fun _ => (l ++ r)%list) s) Hok)
    as (Hp & _).
  repeat split; assumption.
Qed.

(** Two overlapping calls on rows with distinct ids, both successful:
    whichever settles first, the list ends with both flags committed, every
    other record as it was, no call left over and the mark clear. *)
Lemma overlapping_calls_commit
    (s : State) (i j : nat) (a b : Plugin) (ra rb : FetchResult) :
  browsing s = true -> viewMode s = details ->
  nth_error (plugins s) i = Some a -> nth_error (plugins s) j = Some b ->
  id a <> id b -> updating s <> Some (id a) ->
  setPluginEnabled (id a) (negb (enabled a)) ra = Return tt ->
  setPluginEnabled (id b) (negb (enabled b)) rb = Return tt ->
  let n := List.length (inflight s) in
  let both :=
    map (commit b (negb (enabled b))) (map (commit a (negb (enabled a))) (plugins s)) in
  exists s2,
    run [ToggleRow i; ToggleRow j] s = Some s2 /\
    pending_for (id a) s2 = S (pending_for (id a) s) /\
    pending_for (id b) s2 = S (pending_for (id b) s) /\
    forall first second,
      (first, second) = (ToggleSettled n ra, ToggleSettled n rb) \/
      (first, second) = (ToggleSettled (S n) rb, ToggleSettled n ra) ->
      exists s4,
        run [first; second] s2 = Some s4 /\
        plugins s4 = both /\ inflight s4 = inflight s /\ updating s4 = None.
Proof.
  intros Hb Hv Ha Hbb Hab Hu Hra Hrb n both. subst n.
  set (s1 := handleToggle_call a s).
  set (s2 := handleToggle_call b s1).
  exists s2. split; [| split; [| split]].
  - cbn [run]. rewrite (fire_row_enabled s i a Hb Hv Ha Hu). fold s1.
    rewrite (fire_row_enabled s1 j b); auto.
    cbn. congruence.
  - unfold pending_for. subst s2 s1. cbn. rewrite !filter_app, !length_app. cbn.
    rewrite String.eqb_refl.
    destruct (String.eqb_spec (id b) (id a)); [congruence | cbn; lia].
  - unfold pending_for. subst s2 s1. cbn. rewrite !filter_app, !length_app. cbn.
    rewrite String.eqb_refl.
    destruct (String.eqb_spec (id a) (id b)); [congruence | cbn; lia].
  - set (ca := mkToggleCall a (detailPlugin s)).
    set (cb := mkToggleCall b (detailPlugin s1)).
    assert (Hi2 : inflight s2 = ((inflight s ++ [ca]) ++ [cb])%list) by reflexivity.
    assert (Hp2 : plugins s2 = plugins s) by reflexivity.
    intros first second [E | E]; injection E as -> ->; cbn [run].
    + (* a settles first *)
      destruct (settle_success s2 (inflight s) [cb] ca ra) as (s3 & -> & Hp3 & Hi3 & _);
        [rewrite Hi2, <- app_assoc; reflexivity | exact Hra |].
      destruct (settle_success s3 (inflight s) [] cb rb) as (s4 & -> & Hp4 & Hi4 & Hu4);
        [exact Hi3 | exact Hrb |].
      exists s4. repeat split; [| now rewrite Hi4, app_nil_r | exact Hu4].
      rewrite Hp4, Hp3, Hp2. reflexivity.
    + (* b settles first *)
      replace (S (List.length (inflight s))) with (List.length (inflight s ++ [ca])%list)
        by (rewrite length_app; cbn; lia).
      destruct (settle_success s2 (inflight s ++ [ca]) [] cb rb) as (s3 & -> & Hp3 & Hi3 & _);
        [exact Hi2 | exact Hrb |].
      destruct (settle_success s3 (inflight s) [] ca ra) as (s4 & -> & Hp4 & Hi4 & Hu4);
        [now rewrite Hi3, app_nil_r | exact Hra |].
      exists s4. repeat split; [| now rewrite Hi4, app_nil_r | exact Hu4].
      rewrite Hp4, Hp3, Hp2. unfold both. cbn [call_plugin ca cb].
      rewrite !map_map. apply map_ext. intro p. now apply commit_commute.
Qed.

(** X21: the component keeps one [updating] mark, not one per
    id.  In every reachable state a set mark names an id with a call in
    flight, and with no call in flight the mark is clear; the controls
    issue a toggle only for an id that is not the marked one, and the call
    then marks its own id; the mark is cleared when any call settles.
    Calls on rows with distinct ids may overlap, and when both succeed the
    list ends with both flags committed, whichever settles first. *)
Theorem single_updating_mark (s : State) :
  reachable s ->
  (forall x, updating s = Some x -> (0 < pending_for x s)%nat) /\
  (inflight s = [] -> updating s = None) /\
  (forall e s',
     (exists i, e = ToggleRow i) \/ e = TogglePanel ->
     fire e s = Some s' ->
     exists p,
       updating s <> Some (id p) /\ updating s' = Some (id p) /\
       pending_for (id p) s' = S (pending_for (id p) s)) /\
  (forall i r s', fire (ToggleSettled i r) s = Some s' -> updating s' = None) /\
  (forall i j a b ra rb,
     browsing s = true -> viewMode s = details ->
     nth_error (plugins s) i = Some a -> nth_error (plugins s) j = Some b ->
     id a <> id b -> updating s <> Some (id a) ->
     setPluginEnabled (id a) (negb (enabled a)) ra = Return tt ->
     setPluginEnabled (id b) (negb (enabled b)) rb = Return tt ->
     exists s2,
       run [ToggleRow i; ToggleRow j] s = Some s2 /\
       pending_for (id a) s2 = S (pending_for (id a) s) /\
       pending_for (id b) s2 = S (pending_for (id b) s) /\
       forall first second,
         (first, second)
           = (ToggleSettled (List.length (inflight s)) ra,
              ToggleSettled (List.length (inflight s)) rb) \/
         (first, second)
           = (ToggleSettled (S (List.length (inflight s))) rb,
              ToggleSettled (List.length (inflight s)) ra) ->
         exists s4,
           run [first; second] s2 = Some s4 /\
           plugins s4
             = map (commit b (negb (enabled b)))
                 (map (commit a (negb (enabled a))) (plugins s)) /\
           inflight s4 = inflight s /\ updating s4 = None).
Proof.
  intro Hreach. pose proof (reachable_Inv s Hreach) as HI.
  split; [| split; [| split; [| split]]].
  - intros x Hx. destruct (inv_updating s HI x Hx) as (c & Hin & Hid).
    eapply pending_for_In; eassumption.
  - apply (inv_idle s HI).
  - intros e s' [[i ->] | ->] Hfire.
    + destruct (fire_ToggleRow s s' i Hfire) as (p & _ & _ & Hu & ->).
      exists p. repeat split; [exact Hu | apply pending_for_call].
    + destruct (fire_TogglePanel s s' Hfire) as (p & _ & Hu & ->).
      exists p. repeat split; [exact Hu | apply pending_for_call].
  - intros i r s' Hfire. cbn [fire] in Hfire.
    destruct (nth_error (inflight s) i) as [c |]; [| discriminate].
    injection Hfire as <-. apply handleToggle_resume_frame.
  - intros i j a b ra rb. apply overlapping_calls_commit.
Qed.

Lemma single_updating_mark_witness :
  exists s2,
    run [ToggleRow 0; ToggleRow 1] (loaded details) = Some s2 /\
    pending_for "a" s2 = 1%nat /\
    pending_for "b" s2 = 1%nat /\
    exists s4,
      run [ToggleSettled 1 ok_response; ToggleSettled 0 ok_response] s2 = Some s4 /\
      plugins s4 = [with_enabled alpha true; with_enabled beta true] /\
      updating s4 = None.
Proof.
  destruct (single_updating_mark (loaded details) (reachable_loaded details))
    as (_ & _ & _ & _ & Hoverlap).
  destruct (Hoverlap 0%nat 1%nat alpha beta ok_response ok_response)
    as (s2 & Hrun & Ha & Hb & Hsettle);
    try reflexivity; try discriminate.
  exists s2. repeat split; try assumption.
  destruct (Hsettle (ToggleSettled 1 ok_response) (ToggleSettled 0 ok_response))
    as (s4 & Hrun4 & Hp & _ & Hu); [right; reflexivity |].
  exists s4. repeat split; assumption.
Defined.

(** * Further properties of the browser *)

(** ** Well-formed states *)

Lemma fire_ids (s s' : State) (e : Event) :
  fetching s = false -> fire e s = Some s' ->
  map id (plugins s') = map id (plugins s).
Proof.
  intros Hf Hfire. destruct (fire_erase s s' e Hf Hfire) as (E & _).
  apply (f_equal (map id)) in E. now rewrite !map_map in E.
Qed.

Lemma erase_id (p q : Plugin) : erase p = erase q -> id p = id q.
Proof. intro E. now apply (f_equal id) in E. Qed.

Lemma In_erase_id (p : Plugin) (l : list Plugin) :
  In (erase p) (map erase l) -> In (id p) (map id l).
Proof.
  intro H. apply in_map_iff in H. destruct H as (q & E & Hq).
  apply erase_id in E. rewrite <- E. now apply in_map.
Qed.

Lemma Wf_mount (initialView : ViewMode) : Wf (mount initialView).
Proof.
  constructor; cbn; try discriminate; try contradiction; auto. constructor.
Qed.

Lemma existsb_eqb_false (x : string) (l : list string) :
  existsb (String.eqb x) l = false -> ~ In x l.
Proof.
  intros H Hin.
  assert (existsb (String.eqb x) l = true)
    by (apply existsb_exists; exists x; split; [assumption | apply String.eqb_refl]).
  congruence.
Qed.

Lemma Wf_fire (s s' : State) (e : Event) :
  Inv s -> Wf s -> fire e s = Some s' -> Wf s'.
Proof.
  intros HI HW Hfire.
  destruct HW as [Hpan Hcalls Hnd Hic Hld].
  destruct (fetching s) eqn:Hf.
  - (* before the load has settled nothing but the load and unmount fire *)
    pose proof (inv_fetching s HI Hf) as Hl.
    destruct (inv_unloaded s HI (or_introl Hl)) as (Hp & Hi & _ & Hd & _).
    assert (Hb : browsing s = false)
      by (unfold browsing, render; rewrite Hl; apply andb_false_r).
    destruct e; cbn [fire] in Hfire; rewrite ?Hb, ?Hf in Hfire; try discriminate.
    + injection Hfire as <-. unfold load_settle, load_then, load_catch.
      destruct (fetchPlugins r) as [data | m]; cbn [cancelled setFetching];
        destruct (cancelled s) eqn:Hc; cbn [negb];
        constructor; cbn; rewrite ?Hd, ?Hi, ?Hp in *; auto;
        try discriminate; try contradiction; try congruence;
        try (intros x Hx; destruct (Hic x Hx)).
    + destruct (cancelled s); [discriminate |]. injection Hfire as <-.
      constructor; cbn; auto. discriminate.
    + rewrite Hi in Hfire. destruct i; discriminate.
  - pose proof (fire_erase s s' e Hf Hfire) as (Her & Hf').
    pose proof (fire_ids s s' e Hf Hfire) as Hids.
    destruct e; cbn [fire] in Hfire; rewrite ?Hf in Hfire; try discriminate;
      try (destruct (browsing s) eqn:Hb; [| discriminate];
           cbn [fire_ui] in Hfire).
    + destruct (cancelled s); [discriminate |]. injection Hfire as <-.
      constructor; cbn; rewrite ?Hf; auto; try discriminate.
    + destruct (nth_error (plugins s) i) as [p |] eqn:Hp; [| discriminate].
      injection Hfire as <-. constructor; cbn; rewrite ?Hf; auto.
      intros d [= <-]. apply in_map. eapply nth_error_In; eassumption.
    + destruct (nth_error (plugins s) i) as [p |] eqn:Hp; [| discriminate].
      injection Hfire as <-. constructor; cbn; rewrite ?Hf; auto.
    + destruct (handleKeyDown key s) as [s1 |] eqn:Hk; [| discriminate].
      injection Hfire as <-. apply handleKeyDown_cases in Hk.
      destruct Hk as [-> | (p & s2 & _ & _ & -> & [-> | [-> | (q & ->)]])];
        constructor; cbn; rewrite ?Hf; auto; try discriminate.
    + injection Hfire as <-. constructor; cbn; rewrite ?Hf; auto.
    + destruct (nth_error (plugins s) i) as [p |] eqn:Hp; [| discriminate].
      destruct (existsb (String.eqb (id p)) (iconErrors s)) eqn:Hex; [discriminate |].
      injection Hfire as <-. unfold handleIconError.
      constructor; cbn; rewrite ?Hex, ?Hf; auto.
      * apply NoDup_app; [assumption | repeat constructor; intros [] |].
        intros x Hx [<- | []]. now apply existsb_eqb_false in Hex.
      * intros x Hx. apply in_app_or in Hx. destruct Hx as [Hx | [<- | []]]; auto.
        apply in_map. eapply nth_error_In; eassumption.
    + destruct (nth_error (plugins s) i) as [p |] eqn:Hp; [| discriminate].
      destruct (_ && _); [| discriminate]. injection Hfire as <-.
      constructor; cbn; rewrite ?Hf; auto.
      intros c Hc. apply in_app_or in Hc. destruct Hc as [Hc | [<- | []]]; auto.
      cbn. apply in_map. eapply nth_error_In; eassumption.
    + destruct (detailPlugin s) as [d |] eqn:Hd; [| discriminate].
      destruct (strict_eq _ _); [discriminate |]. injection Hfire as <-.
      constructor; cbn; rewrite ?Hd, ?Hf; auto.
      intros c Hc. apply in_app_or in Hc. destruct Hc as [Hc | [<- | []]]; auto.
    + destruct (detailPlugin s) as [d |]; [| discriminate]. injection Hfire as <-.
      constructor; cbn; rewrite ?Hf; auto; try discriminate.
    + destruct (nth_error (inflight s) i) as [c |] eqn:Hc; [| discriminate].
      assert (Hcin : In c (inflight s)) by (eapply nth_error_In; eassumption).
      injection Hfire as E. subst s'.
      destruct (handleToggle_resume_frame c r (setInflight (remove_nth i) s))
        as (_ & Hi' & Hl' & _ & _ & _ & Hic' & _ & Hc' & Hf'').
      constructor; rewrite ?Her, ?Hids, ?Hi', ?Hl', ?Hic', ?Hc', ?Hf''; cbn;
        rewrite ?Hf; auto.
      * unfold handleToggle_resume.
        destruct (setPluginEnabled _ _ r) as [[] | err];
          [destruct (bound_to _ _) |]; cbn; auto.
        intros d [= <-]. apply (Hcalls c Hcin).
      * intros c' Hin'. apply In_remove_nth in Hin'. auto.
Qed.

Lemma reachable_Wf (s : State) : reachable s -> Wf s.
Proof.
  induction 1 as [v | s s' e Hreach IH Hfire].
  - apply Wf_mount.
  - eapply Wf_fire; [apply reachable_Inv | |]; eassumption.
Qed.

(** X1: in every reachable state the selection, when set, is the id of a
    plugin of the list; an open panel comes with a selection and shows a
    record of the list up to its [enabled] flag; and the [updating] mark,
    when set, is the id of a plugin of the list. *)
Theorem selection_panel_mark_in_list (s : State) :
  reachable s ->
  (forall x, selectedId s = Some x -> exists p, In p (plugins s) /\ id p = x) /\
  (forall d, detailPlugin s = Some d ->
     selectedId s <> None /\
     exists p, In p (plugins s) /\ erase p = erase d) /\
  (forall x, updating s = Some x -> In x (map id (plugins s))).
Proof.
  intro Hreach.
  pose proof (reachable_Inv s Hreach) as HI.
  pose proof (reachable_Wf s Hreach) as HW.
  repeat split.
  - intros x Hx. apply (inv_selected s HI) in Hx.
    apply in_map_iff in Hx. destruct Hx as (p & Hp & Hin). now exists p.
  - apply (inv_panel s HI). congruence.
  - apply (wf_panel s HW) in H. apply in_map_iff in H.
    destruct H as (p & Hp & Hin). now exists p.
  - intros x Hx. destruct (inv_updating s HI x Hx) as (c & Hc & <-).
    apply In_erase_id. now apply (wf_calls s HW).
Qed.

Lemma selection_panel_mark_in_list_witness :
  exists p, In p (plugins panel_open) /\ erase p = erase alpha.
Proof.
  destruct (selection_panel_mark_in_list panel_open) as (_ & Hpanel & _).
  - apply (reachable_fire (loaded icons) _ (Click 0));
      [apply reachable_loaded | reflexivity].
  - destruct (Hpanel alpha eq_refl) as (_ & H). exact H.
Defined.

Lemma fire_icons_incl (s s' : State) (e : Event) :
  fire e s = Some s' -> incl (iconErrors s) (iconErrors s').
Proof.
  intro Hfire.
  destruct e; cbn [fire] in Hfire;
    try (destruct (browsing s); [| discriminate]; cbn [fire_ui] in Hfire).
  - destruct (fetching s); [| discriminate]. injection Hfire as <-.
    unfold load_settle, load_then, load_catch.
    destruct (fetchPlugins r); cbn [cancelled setFetching];
      destruct (cancelled s); cbn; apply incl_refl.
  - destruct (cancelled s); [discriminate |]. injection Hfire as <-. apply incl_refl.
  - destruct (nth_error (plugins s) i); [| discriminate].
    injection Hfire as <-. apply incl_refl.
  - destruct (nth_error (plugins s) i); [| discriminate].
    injection Hfire as <-. apply incl_refl.
  - destruct (handleKeyDown key s) as [s1 |] eqn:Hk; [| discriminate].
    injection Hfire as <-. apply handleKeyDown_cases in Hk.
    destruct Hk as [-> | (p & s2 & _ & _ & -> & [-> | [-> | (q & ->)]])];
      apply incl_refl.
  - injection Hfire as <-. apply incl_refl.
  - destruct (nth_error (plugins s) i) as [p |]; [| discriminate].
    destruct (existsb _ _) eqn:Hex; [discriminate |]. injection Hfire as <-.
    unfold handleIconError. cbn. rewrite Hex. now apply incl_appl, incl_refl.
  - destruct (nth_error (plugins s) i) as [p |]; [| discriminate].
    destruct (_ && _); [| discriminate]. injection Hfire as <-. apply incl_refl.
  - destruct (detailPlugin s) as [d |]; [| discriminate].
    destruct (strict_eq _ _); [discriminate |]. injection Hfire as <-. apply incl_refl.
  - destruct (detailPlugin s) as [d |]; [| discriminate].
    injection Hfire as <-. apply incl_refl.
  - destruct (nth_error (inflight s) i) as [c |]; [| discriminate].
    injection Hfire as <-.
    destruct (handleToggle_resume_frame c r (setInflight (remove_nth i) s))
      as (_ & _ & _ & _ & _ & _ & Hic & _).
    rewrite Hic. apply incl_refl.
Qed.

(** X2: the failed icons of a reachable state are ids of plugins of the
    list, each recorded once, and nothing that happens later removes one:
    a fallback glyph, once shown, stays. *)
Theorem icon_failures_persist (s : State) (events : list Event) (s' : State) :
  reachable s ->
  run events s = Some s' ->
  NoDup (iconErrors s) /\
  (forall x, In x (iconErrors s) -> In x (map id (plugins s))) /\
  incl (iconErrors s) (iconErrors s').
Proof.
  intros Hreach Hrun. pose proof (reachable_Wf s Hreach) as HW.
  split; [apply (wf_icons_nodup s HW) |]. split; [apply (wf_icons s HW) |].
  clear Hreach HW. revert s Hrun.
  induction events as [| e events IH]; intros s Hrun; cbn in Hrun.
  - injection Hrun as <-. apply incl_refl.
  - destruct (fire e s) as [s1 |] eqn:Hfire; [| discriminate].
    eapply incl_tran; [eapply fire_icons_incl; eassumption | now apply IH].
Qed.

Lemma icon_failures_persist_witness :
  exists s',
    run [IconError 0; SwitchView details; IconError 1] (loaded icons) = Some s' /\
    incl (iconErrors icon_failed) (iconErrors s').
Proof.
  eexists. split; [reflexivity |].
  refine (proj2 (proj2 (icon_failures_persist icon_failed
                          [SwitchView details; IconError 1%nat] _ _ eq_refl))).
  apply (reachable_fire (loaded icons) _ (IconError 0));
    [apply reachable_loaded | reflexivity].
Defined.

(** X3: a response that parses but has no [plugins] field is a successful
    load of the empty list: the component leaves the loading screen for the
    empty screen, with no error. *)
Theorem missing_plugins_field_is_empty
    (localeCompare : string -> string -> Z) (s : State) (statusText : string) :
  reachable s ->
  fetching s = true ->
  cancelled s = false ->
  let s' := load_settle localeCompare (no_plugins_field statusText) s in
  render s = LoadingScreen /\
  render s' = EmptyScreen /\ error s' = None /\ plugins s' = [] /\ loading s' = false.
Proof.
  intros Hreach Hf Hc s'.
  pose proof (reachable_Inv s Hreach) as HI.
  pose proof (inv_fetching s HI Hf) as Hl.
  pose proof (inv_loading s HI Hl) as He.
  subst s'. unfold load_settle, load_then, render. cbn. rewrite Hc, Hl. cbn.
  rewrite He. cbn. repeat split.
Qed.

Lemma missing_plugins_field_is_empty_witness :
  render (load_settle sample_localeCompare (no_plugins_field "OK") (mount list_view))
  = EmptyScreen.
Proof.
  apply (missing_plugins_field_is_empty sample_localeCompare (mount list_view) "OK");
    [apply reachable_mount | reflexivity | reflexivity].
Defined.

(** ** Opening a plugin from the keyboard *)

Lemma handleKeyDown_Enter (key : string) (s : State) :
  key_of key = Enter -> plugins s <> [] ->
  handleKeyDown key s =
  if currentIndex_of s >=? 0 then
    match index (plugins s) (currentIndex_of s) with
    | Some p => select_at (idx_of s) (handleOpen p s)
    | None => Throw "TypeError: cannot read properties of undefined"
    end
  else select_at (idx_of s) s.
Proof.
  intros Hk Hne. unfold handleKeyDown. rewrite Hk.
  destruct (Z.eqb_spec (JS.length (plugins s)) 0) as [E | _]; [| reflexivity].
  unfold JS.length in E. destruct (plugins s); [congruence | cbn in E; lia].
Qed.

Lemma currentIndex_unselected (s : State) :
  (forall x, selectedId s = Some x -> ~ In x (map id (plugins s))) ->
  currentIndex_of s = -1.
Proof.
  intro Hno. unfold currentIndex_of, findIndex. rewrite findIndexFrom_position.
  destruct (selectedId s) as [x |]; [| reflexivity].
  destruct (Spec.position x (map id (plugins s))) as [k |] eqn:Hk; [| reflexivity].
  apply position_Some_In in Hk. now destruct (Hno x eq_refl).
Qed.

Lemma currentIndex_selected (s : State) (x : string) :
  selectedId s = Some x -> In x (map id (plugins s)) ->
  currentIndex_of s = idx_of s /\ 0 <= currentIndex_of s.
Proof.
  intros Hsel Hin. unfold idx_of, currentIndex_of, findIndex.
  rewrite findIndexFrom_position, Hsel.
  destruct (position_In _ _ Hin) as [k ->].
  destruct (Z.eqb_spec (0 + Z.of_nat k) (-1)); lia.
Qed.

(** X4: [handleKeyDown] dispatches the open-window event only for Enter
    with a selection that is in the list, and then exactly once, with the
    name and id of the selected plugin, leaving the selection as it was;
    every other key press, and Enter without a valid selection, dispatches
    nothing. *)
Theorem only_enter_dispatches (key : string) (s s' : State) :
  handleKeyDown key s = Return s' ->
  (forall x,
     key_of key = Enter -> selectedId s = Some x -> In x (map id (plugins s)) ->
     exists q,
       In q (plugins s) /\ id q = x /\
       dispatched s' = (dispatched s ++ [open_event q])%list /\
       selectedId s' = Some x) /\
  (key_of key <> Enter \/
   (forall x, selectedId s = Some x -> ~ In x (map id (plugins s))) ->
   dispatched s' = dispatched s).
Proof.
  intro Hrun. split.
  - intros x Hk Hsel Hin.
    assert (Hne : plugins s <> []) by (destruct (plugins s); [contradiction | discriminate]).
    rewrite (handleKeyDown_Enter key s Hk Hne) in Hrun.
    destruct (currentIndex_selected s x Hsel Hin) as (Hci & Hpos).
    destruct (idx_of_selected s x Hsel Hin) as (q & Hq & Hid).
    destruct (Z.geb_spec (currentIndex_of s) 0) as [_ | Hneg]; [| lia].
    rewrite Hci, Hq in Hrun. unfold select_at in Hrun.
    cbn [plugins handleOpen dispatchEvent] in Hrun. rewrite Hq in Hrun.
    injection Hrun as <-. exists q. cbn.
    repeat split; try congruence.
    unfold index in Hq. destruct (idx_of s <? 0); [discriminate |].
    eapply nth_error_In; eassumption.
  - intros Hcase.
    destruct (plugins s) as [| p0 ps] eqn:Hps.
    { rewrite handleKeyDown_empty in Hrun by assumption. congruence. }
    assert (Hne : plugins s <> []) by congruence.
    destruct (key_of key) eqn:Hk.
    9: { rewrite handleKeyDown_unhandled in Hrun by assumption. congruence. }
    1-6, 8:
      assert (Hk' : key_of key <> Unhandled) by congruence;
      destruct (handleKeyDown_handled key s Hne Hk') as (s1 & p & Hrun' & _ & _ & Hs1);
      rewrite Hrun' in Hrun; injection Hrun as <-; rewrite Hk in Hs1; cbn;
      try (subst s1; reflexivity).
    + destruct (detailPlugin s); subst s1; reflexivity.
    + destruct Hcase as [Hcase | Hno]; [congruence |].
      rewrite (handleKeyDown_Enter key s Hk Hne) in Hrun.
      rewrite (currentIndex_unselected s) in Hrun by (rewrite Hps; exact Hno).
      cbn in Hrun. unfold select_at in Hrun.
      destruct (index (plugins s) (idx_of s)); [| discriminate].
      injection Hrun as <-. reflexivity.
Qed.

Lemma only_enter_dispatches_witness :
  exists s',
    handleKeyDown "Enter" panel_open = Return s' /\
    dispatched s' = [mkOpenWindow "plugins" "Alpha" "detail" "a"].
Proof.
  destruct (handleKeyDown "Enter" panel_open) as [s' | m] eqn:Hrun;
    [| vm_compute in Hrun; discriminate].
  exists s'. split; [reflexivity |].
  destruct (only_enter_dispatches "Enter" panel_open s' Hrun) as (Hopen & _).
  destruct (Hopen "a" eq_refl eq_refl) as (q & Hin & Hid & Hd & _).
  - vm_compute. auto.
  - rewrite Hd.
    destruct Hin as [<- | [<- | []]]; [reflexivity | vm_compute in Hid; discriminate].
Defined.

(** ** Composing key presses *)

Lemma position_of_nth (ids : list string) (i : nat) (x : string) :
  NoDup ids -> nth_error ids i = Some x -> Spec.position x ids = Some i.
Proof.
  revert i. induction ids as [| y ids IH]; intros [| i] Hnd Hi; cbn in *;
    try discriminate.
  - injection Hi as ->. now rewrite String.eqb_refl.
  - inversion Hnd as [| ? ? Hnotin Hnd']; subst.
    destruct (String.eqb_spec y x) as [-> | _].
    + exfalso. apply Hnotin. eapply nth_error_In; eassumption.
    + now rewrite (IH i Hnd' Hi).
Qed.

Lemma idx_of_index (s : State) (z : Z) (p : Plugin) :
  NoDup (map id (plugins s)) ->
  index (plugins s) z = Some p ->
  selectedId s = Some (id p) ->
  idx_of s = z.
Proof.
  intros Hnd Hp Hsel. unfold index in Hp.
  destruct (Z.ltb_spec z 0) as [| Hz]; [discriminate |].
  rewrite idx_of_position, Hsel. unfold Spec.idx.
  rewrite (position_of_nth _ (Z.to_nat z) (id p) Hnd).
  - lia.
  - rewrite nth_error_map, Hp. reflexivity.
Qed.

(** With unique ids a handled key press moves [idx] to [newIndex]. *)
Lemma key_moves_index (k : string) (s : State) :
  NoDup (map id (plugins s)) ->
  plugins s <> [] ->
  key_of k <> Unhandled ->
  let i := newIndex (viewMode s) (key_of k) (idx_of s) (JS.length (plugins s)) in
  exists s1 p,
    handleKeyDown k s = Return s1 /\
    index (plugins s) i = Some p /\
    selectedId s1 = Some (id p) /\
    plugins s1 = plugins s /\ viewMode s1 = viewMode s /\
    idx_of s1 = i.
Proof.
  intros Hnd Hne Hk i.
  destruct (handleKeyDown_handled k s Hne Hk) as (t1 & p1 & Hrun1 & Hp1 & _ & Ht1).
  apply handled_plugins in Ht1. destruct Ht1 as (Hpl & Hvm & _).
  exists (setSelectedId (Some (id p1)) t1), p1.
  repeat split; try assumption.
  apply (idx_of_index _ i p1); cbn [plugins setSelectedId selectedId];
    rewrite ?Hpl; auto.
Qed.

Lemma icon_down_room (idx n : Z) :
  0 <= idx -> idx + 6 < n -> newIndex icons ArrowDown idx n = idx + 6.
Proof.
  intros Hlo Hroom. unfold newIndex, columns_of, ceil_div, floor_div.
  cbn [ViewMode_eqb]. rewrite Z.rem_mod_nonneg by lia.
  destruct (Z.ltb_spec (idx / 6) ((n + 6 - 1) / 6 - 1));
    [rewrite Z.min_l |]; Z.to_euclidean_division_equations; lia.
Qed.

Lemma icon_up_room (idx n : Z) :
  6 <= idx -> newIndex icons ArrowUp idx n = idx - 6.
Proof.
  intro Hlo. unfold newIndex, columns_of, floor_div.
  cbn [ViewMode_eqb]. rewrite Z.rem_mod_nonneg by lia.
  destruct (Z.gtb_spec (idx / 6) 0); Z.to_euclidean_division_equations; lia.
Qed.

(** X5: when ids are unique, two handled key presses in a row select the
    plugin at the index obtained by applying the two index rules one after
    the other: the selection carries no more state than the index. *)
Theorem key_presses_compose (k1 k2 : string) (s : State) :
  NoDup (map id (plugins s)) ->
  plugins s <> [] ->
  key_of k1 <> Unhandled ->
  key_of k2 <> Unhandled ->
  let n := JS.length (plugins s) in
  let i1 := newIndex (viewMode s) (key_of k1) (idx_of s) n in
  let i2 := newIndex (viewMode s) (key_of k2) i1 n in
  exists s1 s2 p,
    handleKeyDown k1 s = Return s1 /\
    handleKeyDown k2 s1 = Return s2 /\
    index (plugins s) i2 = Some p /\
    selectedId s2 = Some (id p).
Proof.
  intros Hnd Hne Hk1 Hk2 n i1 i2.
  destruct (key_moves_index k1 s Hnd Hne Hk1) as (s1 & p1 & Hrun1 & _ & _ & Hpl & Hvm & Hidx).
  assert (Hnd1 : NoDup (map id (plugins s1))) by now rewrite Hpl.
  assert (Hne1 : plugins s1 <> []) by congruence.
  destruct (key_moves_index k2 s1 Hnd1 Hne1 Hk2) as (s2 & p2 & Hrun2 & Hp2 & Hsel2 & _).
  rewrite Hidx, Hpl, Hvm in Hp2.
  exists s1, s2, p2. repeat split; assumption.
Qed.

Lemma key_presses_compose_witness :
  exists s1 s2 p,
    handleKeyDown "End" twenty_loaded = Return s1 /\
    handleKeyDown "ArrowUp" s1 = Return s2 /\
    index (plugins twenty_loaded) 13 = Some p /\
    selectedId s2 = Some (id p).
Proof.
  apply (key_presses_compose "End" "ArrowUp" twenty_loaded).
  - vm_compute. repeat constructor; cbn; intuition discriminate.
  - vm_compute. discriminate.
  - discriminate.
  - discriminate.
Defined.

(** X6: in the icon view, ArrowUp moves the index back by exactly one row
    of six and stays put on the first row; ArrowDown stays put on the last
    row and otherwise moves forward by six, or to the last plugin when the
    row below is too short; neither leaves the column except for that
    clamp. *)
Theorem icon_rows (idx n : Z) :
  0 <= idx < n ->
  newIndex icons ArrowUp idx n = (if idx <? 6 then idx else idx - 6) /\
  newIndex icons ArrowDown idx n
    = (if idx / 6 <? (n - 1) / 6 then Z.min (idx + 6) (n - 1) else idx) /\
  (newIndex icons ArrowUp idx n) mod 6 = idx mod 6 /\
  ((newIndex icons ArrowDown idx n) mod 6 = idx mod 6 \/
   newIndex icons ArrowDown idx n = n - 1).
Proof.
  intro Hi. unfold newIndex, columns_of, ceil_div, floor_div. cbn [ViewMode_eqb].
  rewrite Z.rem_mod_nonneg by lia.
  destruct (Z.gtb_spec (idx / 6) 0); destruct (Z.ltb_spec idx 6);
    destruct (Z.ltb_spec (idx / 6) ((n + 6 - 1) / 6 - 1));
    destruct (Z.ltb_spec (idx / 6) ((n - 1) / 6));
    repeat split; try (left; Z.to_euclidean_division_equations; lia);
    try (Z.to_euclidean_division_equations; lia);
    destruct (Z.min_spec ((idx / 6 + 1) * 6 + idx mod 6) (n - 1)) as [[? E] | [? E]];
    rewrite E; try (now right);
    left; Z.to_euclidean_division_equations; lia.
Qed.

Lemma icon_rows_witness :
  newIndex icons ArrowUp 13 20 = 7 /\ newIndex icons ArrowDown 13 20 = 19.
Proof.
  destruct (icon_rows 13 20) as (Hup & Hdown & _); [lia |].
  split; [exact Hup | exact Hdown].
Defined.

(** X7: with unique ids in the icon view, ArrowDown followed by ArrowUp
    brings the selection back whenever a plugin lies directly below, and
    ArrowRight followed by ArrowLeft brings it back whenever there is a next
    plugin. *)
Theorem arrows_undo (k1 k2 : string) (d : Z) (s : State) (x : string) :
  (key_of k1, key_of k2, d) = (ArrowDown, ArrowUp, 6) \/
  (key_of k1, key_of k2, d) = (ArrowRight, ArrowLeft, 1) ->
  NoDup (map id (plugins s)) ->
  viewMode s = icons ->
  selectedId s = Some x ->
  In x (map id (plugins s)) ->
  idx_of s + d < JS.length (plugins s) ->
  exists s1 s2,
    handleKeyDown k1 s = Return s1 /\
    handleKeyDown k2 s1 = Return s2 /\
    selectedId s2 = Some x.
Proof.
  intros Hkeys Hnd Hvm Hsel Hin Hroom.
  assert (Hne : plugins s <> []) by (destruct (plugins s); [contradiction | discriminate]).
  pose proof (idx_of_range s Hne) as Hidx.
  destruct (idx_of_selected s x Hsel Hin) as (p & Hp & Hid).
  assert (Hk1 : key_of k1 <> Unhandled) by (destruct Hkeys as [E | E]; injection E; congruence).
  assert (Hk2 : key_of k2 <> Unhandled) by (destruct Hkeys as [E | E]; injection E; congruence).
  destruct (key_moves_index k1 s Hnd Hne Hk1) as (s1 & p1 & Hrun1 & _ & _ & Hpl & Hvm1 & Hidx1).
  assert (Hnd1 : NoDup (map id (plugins s1))) by now rewrite Hpl.
  assert (Hne1 : plugins s1 <> []) by congruence.
  destruct (key_moves_index k2 s1 Hnd1 Hne1 Hk2) as (s2 & q & Hrun2 & Hq & Hsel2 & _).
  exists s1, s2. repeat split; try assumption.
  rewrite Hidx1, Hpl, Hvm1, Hvm in Hq.
  assert (Hback : newIndex icons (key_of k2)
                    (newIndex icons (key_of k1) (idx_of s) (JS.length (plugins s)))
                    (JS.length (plugins s)) = idx_of s).
  { destruct Hkeys as [E | E]; injection E as -> -> ->.
    - rewrite icon_down_room by lia. rewrite icon_up_room by lia. lia.
    - unfold newIndex. cbn [ViewMode_eqb]. lia. }
  rewrite Hback, Hp in Hq. injection Hq as <-. congruence.
Qed.

Lemma arrows_undo_witness :
  exists s1 s2,
    handleKeyDown "ArrowDown" (setSelectedId (Some "H") twenty_loaded) = Return s1 /\
    handleKeyDown "ArrowUp" s1 = Return s2 /\
    selectedId s2 = Some "H".
Proof.
  apply (arrows_undo "ArrowDown" "ArrowUp" 6 (setSelectedId (Some "H") twenty_loaded) "H").
  - now left.
  - vm_compute. repeat constructor; cbn; intuition discriminate.
  - reflexivity.
  - reflexivity.
  - vm_compute. intuition.
  - vm_compute. reflexivity.
Defined.

(** ** Toggling twice *)

Lemma browsing_ext (s s' : State) :
  cancelled s' = cancelled s -> loading s' = loading s -> error s' = error s ->
  List.length (plugins s') = List.length (plugins s) ->
  browsing s' = browsing s.
Proof.
  intros Hc Hl He Hn. unfold browsing, render, JS.length.
  now rewrite Hc, Hl, He, Hn.
Qed.

Lemma settle_success_view
    (s : State) (c : ToggleCall) (statusText : string) (body : Body) :
  inflight s = [c] ->
  exists s',
    fire (ToggleSettled 0 (Response true statusText body)) s = Some s' /\
    plugins s' = map (commit (call_plugin c) (negb (enabled (call_plugin c)))) (plugins s) /\
    inflight s' = [] /\ updating s' = None /\
    viewMode s' = viewMode s /\ browsing s' = browsing s.
Proof.
  intro Hi.
  pose proof (fire_settled_at s [] [] c (Response true statusText body) Hi) as Hfire.
  cbn [List.length] in Hfire. rewrite Hfire.
  eexists. split; [reflexivity |].
  destruct (handleToggle_resume_frame c (Response true statusText body)
              (setInflight (fun _ => ([] ++ [])%list) s))
    as (Hu & Hi' & Hl & He & _ & Hv & _ & _ & Hc & _).
  destruct (handleToggle_resume_success c (Response true statusText body)
              (setInflight (fun _ => ([] ++ [])%list) s) eq_refl)
    as (Hp & _).
  repeat split; try assumption.
  apply browsing_ext; try assumption.
  rewrite Hp. apply length_map.
Qed.

Lemma unique_id (l : list Plugin) (p q : Plugin) :
  NoDup (map id l) -> In p l -> In q l -> id p = id q -> p = q.
Proof.
  induction l as [| a l IH]; cbn; [contradiction |].
  intros Hnd Hp Hq E. inversion Hnd as [| ? ? Hnotin Hnd']; subst.
  destruct Hp as [<- | Hp]; destruct Hq as [<- | Hq]; auto.
  - exfalso. apply Hnotin. rewrite E. now apply in_map.
  - exfalso. apply Hnotin. rewrite <- E. now apply in_map.
Qed.

Lemma commit_twice (l : list Plugin) (X : Plugin) :
  NoDup (map id l) -> In X l ->
  map (commit (with_enabled X (negb (enabled X))) (negb (negb (enabled X))))
      (map (commit X (negb (enabled X))) l) = l.
Proof.
  intros Hnd HX. rewrite map_map. rewrite <- (map_id l) at 2.
  apply map_ext_in. intros p Hp.
  destruct (String.eqb_spec (id p) (id X)) as [E | E].
  - rewrite (unique_id l p X Hnd Hp HX E).
    rewrite (commit_same X X) by reflexivity.
    rewrite commit_same by reflexivity.
    destruct X as [i n d e o u]. cbn. now rewrite negb_involutive.
  - rewrite (commit_other X p) by assumption.
    now rewrite commit_other.
Qed.

(** X8: with unique ids and no call in flight, toggling a row, letting the
    request succeed, and toggling the same row again with success brings
    the list back exactly; in between, the row holds the flipped flag. *)
Theorem toggle_twice_restores
    (s : State) (i : nat) (X : Plugin)
    (st1 st2 : string) (b1 b2 : Body) :
  reachable s ->
  browsing s = true ->
  viewMode s = details ->
  inflight s = [] ->
  NoDup (map id (plugins s)) ->
  nth_error (plugins s) i = Some X ->
  let ok1 := Response true st1 b1 in
  let ok2 := Response true st2 b2 in
  exists s2 s4,
    run [ToggleRow i; ToggleSettled 0 ok1] s = Some s2 /\
    nth_error (plugins s2) i = Some (with_enabled X (negb (enabled X))) /\
    run [ToggleRow i; ToggleSettled 0 ok2] s2 = Some s4 /\
    plugins s4 = plugins s /\ updating s4 = None /\ inflight s4 = [].
Proof.
  intros Hreach Hb Hv Hi Hnd HX ok1 ok2.
  pose proof (inv_idle s (reachable_Inv s Hreach) Hi) as Hu.
  assert (HXin : In X (plugins s)) by (eapply nth_error_In; eassumption).
  set (X' := with_enabled X (negb (enabled X))).
  destruct (settle_success_view (handleToggle_call X s)
              (mkToggleCall X (detailPlugin s)) st1 b1)
    as (s2 & Hfire2 & Hp2 & Hi2 & Hu2 & Hv2 & Hb2).
  { cbn. now rewrite Hi. }
  cbn [call_plugin] in Hp2.
  change (plugins (handleToggle_call X s)) with (plugins s) in Hp2.
  assert (HX2 : nth_error (plugins s2) i = Some X').
  { rewrite Hp2, nth_error_map, HX. cbn. now rewrite (commit_same X X). }
  destruct (settle_success_view (handleToggle_call X' s2)
              (mkToggleCall X' (detailPlugin s2)) st2 b2)
    as (s4 & Hfire4 & Hp4 & Hi4 & Hu4 & _).
  { cbn. now rewrite Hi2. }
  cbn [call_plugin] in Hp4.
  change (plugins (handleToggle_call X' s2)) with (plugins s2) in Hp4.
  exists s2, s4. repeat split; try assumption.
  - cbn [run]. rewrite (fire_row_enabled s i X Hb Hv HX) by congruence.
    fold ok1 in Hfire2. now rewrite Hfire2.
  - cbn [run]. rewrite (fire_row_enabled s2 i X'); try assumption; try congruence.
    + fold ok2 in Hfire4. now rewrite Hfire4.
    + rewrite Hb2. exact Hb.
    + rewrite Hv2. exact Hv.
  - rewrite Hp4, Hp2. now apply commit_twice.
Qed.

Lemma toggle_twice_restores_witness :
  exists s2 s4,
    run [ToggleRow 1; ToggleSettled 0 ok_response] (loaded details) = Some s2 /\
    nth_error (plugins s2) 1 = Some (with_enabled beta true) /\
    run [ToggleRow 1; ToggleSettled 0 ok_response] s2 = Some s4 /\
    plugins s4 = plugins (loaded details) /\ updating s4 = None /\ inflight s4 = [].
Proof.
  apply (toggle_twice_restores (loaded details) 1 beta "OK" "OK" (Json None) (Json None)).
  - apply reachable_loaded.
  - reflexivity.
  - reflexivity.
  - reflexivity.
  - vm_compute. repeat constructor; cbn; intuition discriminate.
  - reflexivity.
Defined.

(** * Properties of the plugin grid *)

Lemma grid_currentIndex (g : Grid.State) :
  Grid.currentIndex_of g = -1 \/
  exists x q,
    Grid.selectedId g = Some x /\
    0 <= Grid.currentIndex_of g < JS.length (Grid.plugins g) /\
    index (Grid.plugins g) (Grid.currentIndex_of g) = Some q /\ id q = x.
Proof.
  unfold Grid.currentIndex_of, findIndex. rewrite findIndexFrom_position.
  destruct (Grid.selectedId g) as [x |]; [| now left].
  destruct (Spec.position x (map id (Grid.plugins g))) as [k |] eqn:Hk; [| now left].
  right. apply position_bound in Hk. rewrite nth_error_map in Hk.
  destruct (nth_error (Grid.plugins g) k) as [q |] eqn:Hq; [| discriminate].
  exists x, q. cbn in Hk. injection Hk as Hid.
  assert (k < List.length (Grid.plugins g))%nat by (apply nth_error_Some; congruence).
  repeat split; try assumption; try (unfold JS.length; lia).
  now rewrite Z.add_0_l, index_nth_error.
Qed.

Lemma grid_idx_range (g : Grid.State) :
  Grid.plugins g <> [] -> 0 <= Grid.idx_of g < JS.length (Grid.plugins g).
Proof.
  intro Hne. unfold Grid.idx_of.
  destruct (grid_currentIndex g) as [E | (x & q & _ & Hr & _)].
  - rewrite E. cbn. unfold JS.length.
    destruct (Grid.plugins g); [congruence | cbn; lia].
  - destruct (Z.eqb_spec (Grid.currentIndex_of g) (-1)); lia.
Qed.

Lemma grid_up (c idx n : Z) :
  1 <= c -> 0 <= idx ->
  Grid.newIndex c ArrowUp idx n = (if idx <? c then idx else idx - c).
Proof.
  intros Hc Hi. unfold Grid.newIndex, floor_div.
  rewrite Z.rem_mod_nonneg by lia.
  pose proof (Z.div_mod idx c ltac:(lia)) as Hdm.
  pose proof (Z.mod_pos_bound idx c ltac:(lia)) as Hm.
  pose proof (Z.div_pos idx c Hi ltac:(lia)) as Hq.
  destruct (Z.gtb_spec (idx / c) 0); destruct (Z.ltb_spec idx c); nia.
Qed.

Lemma grid_down (c idx n : Z) :
  1 <= c -> 0 <= idx ->
  Grid.newIndex c ArrowDown idx n
  = (if idx / c <? (n - 1) / c then Z.min (idx + c) (n - 1) else idx).
Proof.
  intros Hc Hi. unfold Grid.newIndex, floor_div, ceil_div.
  rewrite Z.rem_mod_nonneg by lia.
  replace (n + c - 1) with ((n - 1) + 1 * c) by ring.
  rewrite Z.div_add by lia.
  replace ((n - 1) / c + 1 - 1) with ((n - 1) / c) by ring.
  pose proof (Z.div_mod idx c ltac:(lia)) as Hdm.
  destruct (Z.ltb_spec (idx / c) ((n - 1) / c)); [| reflexivity].
  f_equal. nia.
Qed.

Lemma grid_newIndex_range (c : Z) (k : Key) (idx n : Z) :
  1 <= c -> 0 <= idx < n -> 0 <= Grid.newIndex c k idx n < n.
Proof.
  intros Hc Hi.
  destruct k; try (unfold Grid.newIndex; lia).
  - rewrite grid_down by lia.
    destruct (Z.ltb_spec (idx / c) ((n - 1) / c)); lia.
  - rewrite grid_up by lia. destruct (Z.ltb_spec idx c); lia.
Qed.

Lemma grid_handled (c : Z) (key : string) (g : Grid.State) :
  1 <= c ->
  Grid.plugins g <> [] ->
  key_of key <> Unhandled -> key_of key <> Escape ->
  exists g1 p,
    Grid.handleKeyDown c key g
      = Return (Grid.call (Grid.onSelect (Some p)) (Grid.setSelectedId (Some (id p)) g1)) /\
    index (Grid.plugins g)
      (Grid.newIndex c (key_of key) (Grid.idx_of g) (JS.length (Grid.plugins g))) = Some p /\
    In p (Grid.plugins g) /\
    (g1 = g \/
     key_of key = Enter /\
     exists q, In q (Grid.plugins g) /\ Grid.selectedId g = Some (id q) /\
               g1 = Grid.call (Grid.onOpen (Some q)) g).
Proof.
  intros Hc Hne Hk He.
  pose proof (grid_idx_range g Hne) as Hidx.
  pose proof (grid_newIndex_range c (key_of key) _ _ Hc Hidx) as Hnew.
  destruct (index_Some (Grid.plugins g) _ Hnew) as (p & Hp & Hin).
  unfold Grid.handleKeyDown.
  destruct (Z.eqb_spec (JS.length (Grid.plugins g)) 0) as [E | _]; [lia |].
  destruct (key_of key) eqn:Hkey; try congruence.
  1-6: exists g, p; unfold Grid.select_at; rewrite Hp; auto.
  destruct (Z.geb_spec (Grid.currentIndex_of g) 0) as [Hpos | Hneg].
  - destruct (grid_currentIndex g) as [E | (x & q & Hsel & Hr & Hq & Hid)]; [lia |].
    rewrite Hq. exists (Grid.call (Grid.onOpen (Some q)) g), p.
    unfold Grid.select_at. cbn [Grid.plugins Grid.call]. rewrite Hp.
    repeat split; auto. right. split; [reflexivity |]. exists q.
    repeat split; [| congruence].
    unfold index in Hq. destruct (Grid.currentIndex_of g <? 0); [discriminate |].
    eapply nth_error_In; eassumption.
  - exists g, p. unfold Grid.select_at. rewrite Hp. auto.
Qed.

(** X10: for every column count [columns >= 1] the grid's key handler
    never throws and never reads outside the list.  It either changes
    nothing, or selects the plugin at an index within [0, n-1] and, as its
    last act, calls [onSelect] with that very plugin; [onOpen] is called
    before that only for Enter, and then with the plugin that was
    selected, never with [undefined]. *)
Theorem grid_key_selects_and_notifies (columns : Z) (key : string) (g : Grid.State) :
  1 <= columns ->
  exists g',
    Grid.handleKeyDown columns key g = Return g' /\
    (g' = g \/
     exists i p pre,
       0 <= i < JS.length (Grid.plugins g) /\
       index (Grid.plugins g) i = Some p /\
       Grid.plugins g' = Grid.plugins g /\
       Grid.selectedId g' = Some (id p) /\
       Grid.called g' = (pre ++ [Grid.onSelect (Some p)])%list /\
       (pre = Grid.called g \/
        key_of key = Enter /\
        exists q, In q (Grid.plugins g) /\ Grid.selectedId g = Some (id q) /\
                  pre = (Grid.called g ++ [Grid.onOpen (Some q)])%list)).
Proof.
  intro Hc.
  destruct (Grid.plugins g) as [| p0 ps] eqn:Hps.
  { exists g. split; [| now left]. unfold Grid.handleKeyDown. now rewrite Hps. }
  assert (Hne : Grid.plugins g <> []) by congruence.
  destruct (key_of key) eqn:Hk.
  8, 9: exists g; split; [| now left]; unfold Grid.handleKeyDown; rewrite Hk;
        now destruct (JS.length (Grid.plugins g) =? 0).
  all: assert (Hk1 : key_of key <> Unhandled) by congruence;
    assert (Hk2 : key_of key <> Escape) by congruence;
    destruct (grid_handled columns key g Hc Hne Hk1 Hk2) as (g1 & p & Hrun & Hp & Hin & Hg1);
    eexists; (split; [exact Hrun |]); right;
    exists (Grid.newIndex columns (key_of key) (Grid.idx_of g) (JS.length (Grid.plugins g))),
           p, (Grid.called g1);
    rewrite <- Hps;
    (split; [apply grid_newIndex_range; [exact Hc | now apply grid_idx_range] |]);
    (split; [exact Hp |]);
    destruct Hg1 as [-> | (HE & q & Hq & Hsel & ->)]; cbn;
    repeat split; auto;
    right; split; [congruence | exists q; auto].
Qed.

Lemma grid_key_selects_and_notifies_witness :
  exists g',
    Grid.handleKeyDown 1 "ArrowDown" Grid.loaded = Return g' /\
    Grid.selectedId g' = Some "b" /\
    Grid.called g' = [Grid.onSelect (Some beta)].
Proof.
  destruct (grid_key_selects_and_notifies 1 "ArrowDown" Grid.loaded) as (g' & Hrun & _);
    [lia |].
  exists g'. split; [exact Hrun |].
  vm_compute in Hrun. injection Hrun as <-. split; reflexivity.
Defined.

(** X11: with [columns >= 1], ArrowUp moves the index back by exactly
    [columns] and stays put on the first row; ArrowDown stays put on the
    last row and otherwise moves forward by [columns], clamped to the last
    plugin.  So in a grid at least as wide as the list neither key moves,
    and in a one-column grid they act as ArrowLeft and ArrowRight. *)
Theorem grid_rows (columns idx n : Z) :
  1 <= columns ->
  0 <= idx < n ->
  Grid.newIndex columns ArrowUp idx n
    = (if idx <? columns then idx else idx - columns) /\
  Grid.newIndex columns ArrowDown idx n
    = (if idx / columns <? (n - 1) / columns
       then Z.min (idx + columns) (n - 1) else idx) /\
  (n <= columns ->
   Grid.newIndex columns ArrowUp idx n = idx /\
   Grid.newIndex columns ArrowDown idx n = idx) /\
  (columns = 1 ->
   Grid.newIndex columns ArrowUp idx n = Grid.newIndex columns ArrowLeft idx n /\
   Grid.newIndex columns ArrowDown idx n = Grid.newIndex columns ArrowRight idx n).
Proof.
  intros Hc Hi.
  rewrite (grid_up columns idx n) by lia.
  rewrite (grid_down columns idx n) by lia.
  repeat split.
  - destruct (Z.ltb_spec idx columns); lia.
  - rewrite (Z.div_small idx columns) by lia.
    rewrite (Z.div_small (n - 1) columns) by lia. reflexivity.
  - subst columns. unfold Grid.newIndex.
    destruct (Z.ltb_spec idx 1); lia.
  - subst columns. unfold Grid.newIndex. rewrite !Z.div_1_r.
    destruct (Z.ltb_spec idx (n - 1)); lia.
Qed.

Lemma grid_rows_witness :
  Grid.newIndex 4 ArrowUp 9 10 = 5 /\ Grid.newIndex 4 ArrowDown 7 10 = 9.
Proof.
  split.
  - destruct (grid_rows 4 9 10) as (Hup & _); [lia | lia | exact Hup].
  - destruct (grid_rows 4 7 10) as (_ & Hdown & _); [lia | lia | exact Hdown].
Defined.

Lemma grid_newIndex_six (k : Key) (idx n : Z) :
  Grid.newIndex 6 k idx n = newIndex icons k idx n.
Proof. now destruct k. Qed.

Lemma same_view_idx (g : Grid.State) (s : State) :
  same_view g s -> Grid.idx_of g = idx_of s.
Proof.
  intros (Hp & Hs & _).
  unfold Grid.idx_of, Grid.currentIndex_of, idx_of, currentIndex_of.
  now rewrite Hp, Hs.
Qed.

(** X12: a grid with six columns and the browser in its icon view, showing
    the same list with the same selection, select the same plugin on every
    key other than Escape, which only the browser handles. *)
Theorem grid_six_agrees_with_browser (key : string) (g : Grid.State) (s : State) :
  same_view g s ->
  key_of key <> Escape ->
  exists g' s',
    Grid.handleKeyDown 6 key g = Return g' /\
    handleKeyDown key s = Return s' /\
    Grid.selectedId g' = selectedId s' /\
    Grid.plugins g' = plugins s'.
Proof.
  intros Hsame He. pose proof Hsame as (Hp & Hs & Hv).
  destruct (Grid.plugins g) as [| p0 ps] eqn:Hps.
  { exists g, s. rewrite (handleKeyDown_empty key s Hp).
    unfold Grid.handleKeyDown. rewrite Hps. cbn. repeat split; congruence. }
  destruct (key_of key) eqn:Hk; try congruence.
  8: { exists g, s. rewrite (handleKeyDown_unhandled key s Hk).
       unfold Grid.handleKeyDown. rewrite Hk.
       destruct (JS.length (Grid.plugins g) =? 0); repeat split; congruence. }
  all: assert (Hneg : Grid.plugins g <> []) by congruence;
    assert (Hnes : plugins s <> []) by congruence;
    assert (Hk1 : key_of key <> Unhandled) by congruence;
    assert (Hk2 : key_of key <> Escape) by congruence;
    destruct (grid_handled 6 key g ltac:(lia) Hneg Hk1 Hk2) as (g1 & p & Hrun & Hq & _ & Hg1);
    destruct (handleKeyDown_handled key s Hnes Hk1) as (s1 & p' & Hrun' & Hq' & _ & Hs1);
    apply handled_plugins in Hs1; destruct Hs1 as (Hpl & _ & _);
    assert (Hpg : Grid.plugins g = plugins s) by congruence;
    rewrite grid_newIndex_six, (same_view_idx g s Hsame), Hpg, <- Hv in Hq;
    rewrite Hq in Hq'; injection Hq' as <-;
    eexists; eexists; (split; [exact Hrun |]); (split; [exact Hrun' |]);
    destruct Hg1 as [-> | (_ & q & _ & _ & ->)]; cbn; split; congruence.
Qed.

Lemma grid_six_agrees_with_browser_witness :
  exists g' s',
    Grid.handleKeyDown 6 "End" Grid.loaded = Return g' /\
    handleKeyDown "End" (loaded icons) = Return s' /\
    Grid.selectedId g' = selectedId s' /\
    Grid.plugins g' = plugins s'.
Proof.
  apply (grid_six_agrees_with_browser "End" Grid.loaded (loaded icons)).
  - repeat split.
  - discriminate.
Defined.

(** * Properties of the plugin detail view *)

Lemma nth_update_nth_same {A : Type} (k : nat) (f : A -> A) (l : list A) :
  nth_error (Detail.update_nth k f l) k = option_map f (nth_error l k).
Proof.
  revert k. induction l as [| x l IH]; intros [| k]; cbn; auto.
Qed.

Lemma nth_update_nth_other {A : Type} (k j : nat) (f : A -> A) (l : list A) :
  j <> k -> nth_error (Detail.update_nth k f l) j = nth_error l j.
Proof.
  revert k j. induction l as [| x l IH]; intros [| k] [| j] Hne; cbn; auto;
    try congruence.
Qed.

(** After the cleanup no run is live. *)
Lemma detail_cleanup_quiet (s : Detail.State) :
  Detail.Inv s ->
  let s1 := Detail.effect_cleanup s in
  Detail.cleanup s1 = None /\
  (forall k f, nth_error (Detail.fetches s1) k = Some f -> Detail.fetch_cancelled f = true) /\
  Detail.inflight s1 = Detail.inflight s /\ Detail.updating s1 = Detail.updating s /\
  Detail.mounted s1 = Detail.mounted s /\ Detail.plugin s1 = Detail.plugin s /\
  Detail.pluginId s1 = Detail.pluginId s.
Proof.
  intros [Hcl Hoth Hpend Hg]. unfold Detail.effect_cleanup.
  destruct (Detail.cleanup s) as [k |] eqn:Hk; cbn.
  - repeat split. intros j f Hj.
    destruct (Nat.eq_dec j k) as [-> | Hne].
    + rewrite nth_update_nth_same in Hj.
      destruct (nth_error (Detail.fetches s) k); [| discriminate].
      cbn in Hj. injection Hj as <-. reflexivity.
    + rewrite nth_update_nth_other in Hj by assumption.
      apply (Hoth j f Hj). congruence.
  - rewrite Hk. repeat split. intros j f Hj. apply (Hoth j f Hj). discriminate.
Qed.

(** Running the effect on a state with no live run gives a good state. *)
Lemma detail_effect_run_Inv (s : Detail.State) :
  Detail.cleanup s = None ->
  (forall k f, nth_error (Detail.fetches s) k = Some f -> Detail.fetch_cancelled f = true) ->
  (Detail.inflight s = [] /\ Detail.updating s = false \/
   (exists p, Detail.inflight s = [p]) /\ Detail.updating s = true) ->
  Detail.Inv (Detail.effect_run s).
Proof.
  intros Hc Hall Hg. unfold Detail.effect_run.
  destruct (String.eqb (Detail.pluginId s) EmptyString).
  - constructor; cbn; auto; try discriminate.
    intros k f Hk _. eauto.
  - constructor; cbn; auto.
    + intros k [= <-]. exists (Detail.mkFetch (Detail.pluginId s) false false).
      split; [| split; reflexivity].
      replace (List.length (Detail.fetches s))
        with (List.length (Detail.fetches s) + 0)%nat by lia.
      now rewrite nth_error_after.
    + intros k f Hk Hne.
      destruct (Nat.lt_ge_cases k (List.length (Detail.fetches s))) as [Hlt | Hge].
      * rewrite nth_error_app1 in Hk by assumption. eauto.
      * rewrite nth_error_app2 in Hk by assumption.
        destruct (k - List.length (Detail.fetches s))%nat as [| d] eqn:Hd.
        -- exfalso. apply Hne. f_equal. lia.
        -- cbn in Hk. destruct d; discriminate.
Qed.

Lemma detail_Inv_mount (pluginId : string) : Detail.Inv (Detail.mount pluginId).
Proof.
  apply detail_effect_run_Inv; cbn; auto.
  intros [| k] f H; discriminate.
Qed.

Lemma detail_Inv_fire (s s' : Detail.State) (e : Detail.Event) :
  Detail.Inv s -> Detail.fire e s = Some s' -> Detail.Inv s'.
Proof.
  intros HI Hfire. pose proof HI as [Hcl Hoth Hpend Hg].
  destruct e; cbn [Detail.fire] in Hfire.
  - (* the id changes *)
    destruct (Detail.mounted s); [| discriminate]. injection Hfire as <-.
    unfold Detail.change_pluginId.
    destruct (String.eqb newId (Detail.pluginId s)); [exact HI |].
    destruct (detail_cleanup_quiet s HI) as (Hc1 & Hall1 & Hi1 & Hu1 & _).
    apply detail_effect_run_Inv; cbn; rewrite ?Hi1, ?Hu1; assumption.
  - (* unmount *)
    destruct (Detail.mounted s); [| discriminate]. injection Hfire as <-.
    destruct (detail_cleanup_quiet s HI) as (Hc1 & Hall1 & Hi1 & Hu1 & _).
    unfold Detail.unmount. constructor; cbn; rewrite ?Hi1, ?Hu1, ?Hc1; auto;
      try discriminate.
    intros k f Hk _. eauto.
  - (* a fetch settles *)
    destruct (nth_error (Detail.fetches s) k) as [f |] eqn:Hf; [| discriminate].
    destruct (Detail.fetch_settled f) eqn:Hset; [discriminate |].
    injection Hfire as <-. unfold Detail.fetch_settle, Detail.fetch_then, Detail.fetch_catch.
    assert (Hshape :
      forall t, Detail.fetches t = Detail.update_nth k Detail.settle (Detail.fetches s) ->
                Detail.cleanup t = Detail.cleanup s ->
                Detail.pluginId t = Detail.pluginId s ->
                Detail.inflight t = Detail.inflight s ->
                Detail.updating t = Detail.updating s ->
                (Detail.cleanup s <> Some k ->
                 Detail.loading t = Detail.loading s /\ Detail.error t = Detail.error s) ->
                Detail.Inv t).
    { intros t Hft Hct Hpt Hit Hut Hstale.
      constructor; rewrite ?Hft, ?Hct, ?Hpt, ?Hit, ?Hut; auto.
      - intros j Hj. destruct (Hcl j Hj) as (g & Hg1 & Hg2 & Hg3).
        destruct (Nat.eq_dec j k) as [-> | Hne].
        + rewrite nth_update_nth_same, Hg1. eexists. split; [reflexivity |]. auto.
        + rewrite nth_update_nth_other by assumption. eauto.
      - intros j g Hj Hne. destruct (Nat.eq_dec j k) as [-> | Hjk].
        + rewrite nth_update_nth_same, Hf in Hj. injection Hj as <-.
          cbn. apply (Hoth k f Hf Hne).
        + rewrite nth_update_nth_other in Hj by assumption. eauto.
      - intros j g Hj Hg1 Hg2. destruct (Nat.eq_dec j k) as [-> | Hjk].
        + rewrite nth_update_nth_same, Hf in Hg1. injection Hg1 as <-. discriminate.
        + rewrite nth_update_nth_other in Hg1 by assumption.
          destruct Hstale as (Hl & He); [congruence |].
          rewrite Hl, He. eauto. }
    destruct (Detail.fetchPlugin (Detail.fetch_pluginId f) r) as [[p |] | m];
      destruct (Detail.fetch_cancelled f) eqn:Hcan; cbn [negb];
      apply Hshape; cbn; auto;
      intro Hne; rewrite (Hoth k f Hf Hne) in Hcan; discriminate.
  - (* the toggle button *)
    destruct (Detail.render s); try discriminate.
    destruct (Detail.mounted s && negb (Detail.updating s)) eqn:Hm; [| discriminate].
    injection Hfire as <-. apply andb_true_iff in Hm. destruct Hm as (_ & Hu).
    apply negb_true_iff in Hu. unfold Detail.handleToggle_call.
    destruct (Detail.plugin s) as [q |]; [| exact HI].
    destruct Hg as [(Hi & _) | (_ & Hu')]; [| congruence].
    constructor; cbn; auto. right. split; [| reflexivity].
    exists q. now rewrite Hi.
  - (* a toggle settles *)
    destruct (Detail.inflight s) as [| q rest] eqn:Hi; [discriminate |].
    injection Hfire as <-.
    destruct Hg as [(Hnil & _) | ((q' & Hone) & _)]; [discriminate |].
    injection Hone as -> ->. unfold Detail.handleToggle_resume.
    destruct (setPluginEnabled _ _ r) as [[] | err]; constructor; cbn; auto.
  - (* the icon fails *)
    destruct (Detail.render s); try discriminate.
    destruct (Detail.mounted s && negb (Detail.iconError s)); [| discriminate].
    injection Hfire as <-. constructor; cbn; auto.
Qed.

Lemma detail_reachable_Inv (s : Detail.State) : Detail.reachable s -> Detail.Inv s.
Proof.
  induction 1 as [pid | s s' e _ IH Hfire].
  - apply detail_Inv_mount.
  - eapply detail_Inv_fire; eassumption.
Qed.

Lemma fetchPlugin_via_list (pluginId : string) (r : FetchResult) :
  Detail.fetchPlugin pluginId r =
  match fetchPlugins r with
  | Return data => Return (Detail.find_plugin pluginId data)
  | Throw message => Throw message
  end.
Proof.
  destruct r as [m | ok statusText [m | [data |]]]; cbn; try reflexivity;
    destruct ok; reflexivity.
Qed.

Lemma detail_render_plugin (s : Detail.State) (p : Plugin) :
  Detail.render s = Detail.PluginScreen p ->
  Detail.loading s = false /\ truthy (Detail.error s) = false /\
  Detail.plugin s = Some p.
Proof.
  unfold Detail.render.
  destruct (Detail.loading s); [discriminate |].
  destruct (truthy (Detail.error s)).
  - destruct (Detail.error s); discriminate.
  - destruct (Detail.plugin s); [| discriminate]. intros [= ->]. auto.
Qed.

(** X13: when the fetch of the live effect run settles, exactly one of
    three things shows.  If the request failed, [error] is the thrown
    message; if the list holds a plugin with the requested id, the first
    such plugin is shown; otherwise the error reads "Plugin not found: "
    followed by the id, which no failed request produces. *)
Theorem detail_fetch_outcomes
    (s s' : Detail.State) (k : nat) (r : FetchResult) :
  Detail.reachable s ->
  Detail.cleanup s = Some k ->
  Detail.fire (Detail.FetchSettled k r) s = Some s' ->
  match fetchPlugins r with
  | Throw message =>
      Detail.error s' = Some message /\ Detail.loading s' = false /\
      Detail.plugin s' = Detail.plugin s
  | Return data =>
      match Detail.find_plugin (Detail.pluginId s) data with
      | Some p =>
          id p = Detail.pluginId s /\ In p data /\
          Detail.render s' = Detail.PluginScreen p
      | None =>
          (forall q, In q data -> id q <> Detail.pluginId s) /\
          Detail.render s'
            = Detail.ErrorScreen ("Plugin not found: " ++ Detail.pluginId s)%string /\
          Detail.plugin s' = Detail.plugin s
      end
  end.
Proof.
  intros Hreach Hk Hfire.
  pose proof (detail_reachable_Inv s Hreach) as HI.
  destruct (Detail.inv_cleanup s HI k Hk) as (f & Hf & Hcan & Hid).
  cbn [Detail.fire] in Hfire. rewrite Hf in Hfire.
  destruct (Detail.fetch_settled f) eqn:Hset; [discriminate |].
  destruct (Detail.inv_pending s HI k f Hk Hf Hset) as (Hl & He).
  injection Hfire as <-.
  unfold Detail.fetch_settle, Detail.fetch_then, Detail.fetch_catch.
  rewrite fetchPlugin_via_list, Hid, Hcan.
  destruct (fetchPlugins r) as [data | m]; cbn [negb]; [| cbn; auto].
  destruct (Detail.find_plugin (Detail.pluginId s) data) as [p |] eqn:Hfind.
  - apply find_some in Hfind. destruct Hfind as (Hin & Heq).
    apply String.eqb_eq in Heq. repeat split; try assumption.
    unfold Detail.render. cbn. now rewrite He.
  - split; [| split; reflexivity].
    intros q Hq Hidq. pose proof (find_none _ _ Hfind q Hq) as Hn.
    apply String.eqb_neq in Hn. contradiction.
Qed.

Lemma detail_fetch_outcomes_witness :
  exists s',
    Detail.fire (Detail.FetchSettled 0 (Detail.ok "OK" [beta; alpha])) (Detail.mount "a")
      = Some s' /\
    Detail.render s' = Detail.PluginScreen alpha.
Proof.
  eexists. split; [reflexivity |].
  exact (proj2 (proj2
    (detail_fetch_outcomes (Detail.mount "a") _ 0 (Detail.ok "OK" [beta; alpha])
       (Detail.reachable_mount "a") eq_refl eq_refl))).
Defined.

(** X14: a fetch that settles after its effect run was cleaned up (the
    [pluginId] changed, or the component was unmounted, before it
    resolved) changes neither the plugin, nor [loading], nor [error], nor
    what is rendered, whether it succeeded or failed. *)
Theorem detail_stale_fetch_ignored
    (s s' : Detail.State) (k : nat) (r : FetchResult) :
  Detail.reachable s ->
  Detail.cleanup s <> Some k ->
  Detail.fire (Detail.FetchSettled k r) s = Some s' ->
  Detail.plugin s' = Detail.plugin s /\ Detail.loading s' = Detail.loading s /\
  Detail.error s' = Detail.error s /\ Detail.render s' = Detail.render s.
Proof.
  intros Hreach Hk Hfire.
  pose proof (detail_reachable_Inv s Hreach) as HI.
  cbn [Detail.fire] in Hfire.
  destruct (nth_error (Detail.fetches s) k) as [f |] eqn:Hf; [| discriminate].
  destruct (Detail.fetch_settled f); [discriminate |]. injection Hfire as <-.
  pose proof (Detail.inv_others s HI k f Hf Hk) as Hcan.
  unfold Detail.fetch_settle, Detail.fetch_then, Detail.fetch_catch.
  rewrite Hcan. destruct (Detail.fetchPlugin _ r); cbn; auto.
Qed.

Lemma detail_stale_fetch_ignored_witness :
  exists s s',
    Detail.run [Detail.ChangeId "b"] (Detail.mount "a") = Some s /\
    Detail.fire (Detail.FetchSettled 0 (Detail.ok "OK" [beta; alpha])) s = Some s' /\
    Detail.render s' = Detail.LoadingScreen /\ Detail.plugin s' = None.
Proof.
  set (s := Detail.change_pluginId "b" (Detail.mount "a")).
  destruct (Detail.fire (Detail.FetchSettled 0 (Detail.ok "OK" [beta; alpha])) s)
    as [s' |] eqn:Hfire; [| vm_compute in Hfire; discriminate].
  exists s, s'. split; [reflexivity |]. split; [exact Hfire |].
  destruct (detail_stale_fetch_ignored s s' 0 (Detail.ok "OK" [beta; alpha]))
    as (Hp & _ & _ & Hr).
  - apply (Detail.reachable_fire (Detail.mount "a") _ (Detail.ChangeId "b"));
      [apply Detail.reachable_mount | reflexivity].
  - discriminate.
  - exact Hfire.
  - rewrite Hr, Hp. split; reflexivity.
Defined.

(** X15: in the detail view at most one toggle is ever in flight:
    [updating] is set exactly while one is, and the button starts a toggle
    only when none is, for the plugin currently shown. *)
Theorem detail_one_toggle_in_flight (s : Detail.State) :
  Detail.reachable s ->
  (List.length (Detail.inflight s) <= 1)%nat /\
  (Detail.updating s = true <-> Detail.inflight s <> []) /\
  (forall s',
     Detail.fire Detail.ToggleClick s = Some s' ->
     Detail.inflight s = [] /\
     exists p, Detail.render s = Detail.PluginScreen p /\
               Detail.inflight s' = [p] /\ Detail.updating s' = true).
Proof.
  intro Hreach. pose proof (detail_reachable_Inv s Hreach) as HI.
  destruct (Detail.inv_guard s HI) as [(Hi & Hu) | ((p & Hi) & Hu)].
  - rewrite Hi, Hu. repeat split; try (cbn; lia); try congruence.
    cbn [Detail.fire] in H.
    destruct (Detail.render s) as [| m | q] eqn:Hr; try discriminate.
    destruct (Detail.mounted s && negb (Detail.updating s)); [| discriminate].
    injection H as <-. exists q. split; [reflexivity |].
    apply detail_render_plugin in Hr. destruct Hr as (_ & _ & Hp).
    unfold Detail.handleToggle_call. rewrite Hp. cbn. now rewrite Hi.
  - rewrite Hi, Hu. repeat split; try (cbn; lia); try congruence;
      cbn [Detail.fire] in H;
      destruct (Detail.render s); try discriminate;
      rewrite Hu, andb_false_r in H; discriminate.
Qed.

Lemma detail_one_toggle_in_flight_witness :
  exists s',
    Detail.fire Detail.ToggleClick detail_alpha = Some s' /\
    Detail.inflight s' = [alpha] /\
    Detail.fire Detail.ToggleClick s' = None.
Proof.
  eexists. split; [reflexivity |]. split; [reflexivity |].
  destruct (detail_one_toggle_in_flight (Detail.handleToggle_call detail_alpha))
    as (_ & _ & Hclick).
  - apply (Detail.reachable_fire detail_alpha _ Detail.ToggleClick); [| reflexivity].
    apply (Detail.reachable_fire (Detail.mount "a") _
             (Detail.FetchSettled 0 (Detail.ok "OK" [beta; alpha])));
      [apply Detail.reachable_mount | reflexivity].
  - destruct (Detail.fire Detail.ToggleClick (Detail.handleToggle_call detail_alpha))
      as [s2 |] eqn:E; [| reflexivity].
    destruct (Hclick s2 eq_refl) as (Hnil & _). discriminate.
Defined.

Lemma detail_toggle_once
    (s : Detail.State) (p : Plugin) (statusText : string) (body : Body) :
  Detail.render s = Detail.PluginScreen p ->
  Detail.mounted s = true -> Detail.updating s = false -> Detail.inflight s = [] ->
  exists s2,
    Detail.run [Detail.ToggleClick; Detail.ToggleSettled (Response true statusText body)] s
      = Some s2 /\
    Detail.render s2 = Detail.PluginScreen (with_enabled p (negb (enabled p))) /\
    Detail.mounted s2 = true /\ Detail.updating s2 = false /\ Detail.inflight s2 = [] /\
    Detail.error s2 = Detail.error s /\ Detail.pluginId s2 = Detail.pluginId s.
Proof.
  intros Hr Hm Hu Hi.
  destruct (detail_render_plugin s p Hr) as (Hl & He & Hp).
  cbn [Detail.run Detail.fire]. rewrite Hr, Hm, Hu. cbn [andb negb].
  unfold Detail.handleToggle_call. rewrite Hp. cbn. rewrite Hi. cbn.
  eexists. split; [reflexivity |].
  unfold Detail.render. cbn. rewrite Hl, He. repeat split; assumption.
Qed.

(** X16: in the detail view, two successful toggles in a row bring back
    the plugin that was shown; after the first, the screen shows it with
    the flag flipped. *)
Theorem detail_toggle_twice_restores
    (s : Detail.State) (p : Plugin) (st1 st2 : string) (b1 b2 : Body) :
  Detail.reachable s ->
  Detail.mounted s = true ->
  Detail.render s = Detail.PluginScreen p ->
  Detail.updating s = false ->
  exists s2 s4,
    Detail.run [Detail.ToggleClick; Detail.ToggleSettled (Response true st1 b1)] s
      = Some s2 /\
    Detail.render s2 = Detail.PluginScreen (with_enabled p (negb (enabled p))) /\
    Detail.run [Detail.ToggleClick; Detail.ToggleSettled (Response true st2 b2)] s2
      = Some s4 /\
    Detail.render s4 = Detail.PluginScreen p /\
    Detail.updating s4 = false.
Proof.
  intros Hreach Hm Hr Hu.
  assert (Hi : Detail.inflight s = []).
  { destruct (Detail.inv_guard s (detail_reachable_Inv s Hreach))
      as [(Hi & _) | (_ & Hu')]; [assumption | congruence]. }
  destruct (detail_toggle_once s p st1 b1 Hr Hm Hu Hi)
    as (s2 & Hrun2 & Hr2 & Hm2 & Hu2 & Hi2 & _).
  destruct (detail_toggle_once s2 _ st2 b2 Hr2 Hm2 Hu2 Hi2)
    as (s4 & Hrun4 & Hr4 & _ & Hu4 & _).
  exists s2, s4. repeat split; try assumption.
  rewrite Hr4. f_equal. destruct p as [i n d e o u]. cbn. now rewrite negb_involutive.
Qed.

Lemma detail_toggle_twice_restores_witness :
  exists s2 s4,
    Detail.run [Detail.ToggleClick; Detail.ToggleSettled ok_response] detail_alpha = Some s2 /\
    Detail.render s2 = Detail.PluginScreen (with_enabled alpha true) /\
    Detail.run [Detail.ToggleClick; Detail.ToggleSettled ok_response] s2 = Some s4 /\
    Detail.render s4 = Detail.PluginScreen alpha /\
    Detail.updating s4 = false.
Proof.
  apply (detail_toggle_twice_restores detail_alpha alpha "OK" "OK" (Json None) (Json None)).
  - apply (Detail.reachable_fire (Detail.mount "a") _
             (Detail.FetchSettled 0 (Detail.ok "OK" [beta; alpha])));
      [apply Detail.reachable_mount | reflexivity].
  - reflexivity.
  - reflexivity.
  - reflexivity.
Defined.

(** X17: mounted without a plugin id, the detail view issues no request
    and shows "No plugin specified"; as long as the id does not change,
    nothing that can happen alters that. *)
Theorem detail_without_id (events : list Detail.Event) (s' : Detail.State) :
  Forall keeps_id events ->
  Detail.run events (Detail.mount EmptyString) = Some s' ->
  Detail.fetches s' = [] /\
  Detail.render s' = Detail.ErrorScreen "No plugin specified".
Proof.
  intros Hall Hrun.
  assert (Hgen : forall s,
    Detail.fetches s = [] /\ Detail.inflight s = [] /\ Detail.loading s = false /\
    Detail.error s = Some "No plugin specified" /\ Detail.cleanup s = None ->
    Detail.run events s = Some s' ->
    Detail.fetches s' = [] /\
    Detail.render s' = Detail.ErrorScreen "No plugin specified").
  { clear Hrun. induction Hall as [| e events He _ IH]; intros s Hs Hrun; cbn in Hrun.
    - injection Hrun as <-. destruct Hs as (Hf & _ & Hl & Her & _).
      split; [assumption |]. unfold Detail.render. now rewrite Hl, Her.
    - destruct (Detail.fire e s) as [s1 |] eqn:Hfire; [| discriminate].
      apply (IH s1); [| assumption].
      destruct Hs as (Hf & Hi & Hl & Her & Hc).
      assert (Hscreen : Detail.render s = Detail.ErrorScreen "No plugin specified")
        by (unfold Detail.render; now rewrite Hl, Her).
      destruct e; cbn [Detail.fire] in Hfire; try contradiction;
        rewrite ?Hscreen, ?Hf, ?Hi in Hfire; try discriminate.
      + destruct (Detail.mounted s); [| discriminate]. injection Hfire as <-.
        unfold Detail.unmount, Detail.effect_cleanup. rewrite Hc. cbn. auto.
      + destruct k; discriminate. }
  apply (Hgen (Detail.mount EmptyString)); [| assumption].
  cbn. auto.
Qed.

Lemma detail_without_id_witness :
  exists s',
    Detail.run [Detail.Unmount] (Detail.mount EmptyString) = Some s' /\
    Detail.fetches s' = [] /\
    Detail.render s' = Detail.ErrorScreen "No plugin specified".
Proof.
  eexists. split; [reflexivity |].
  apply (detail_without_id [Detail.Unmount]); [| reflexivity].
  repeat constructor.
Defined.

(** * Properties of the text primitive and the search result *)

Lemma trimEnd_all_space (s : string) :
  Text.all_space s = true -> Text.trimEnd s = EmptyString.
Proof.
  induction s as [| c s IH]; cbn; [reflexivity |].
  intro H. apply andb_true_iff in H. destruct H as (Hc & Hs).
  now rewrite (IH Hs), Hc.
Qed.

Lemma trimEnd_not_all_space (s : string) :
  Text.all_space s = false -> Text.trimEnd s <> EmptyString.
Proof.
  induction s as [| c s IH]; cbn; [discriminate |].
  intro H. apply andb_false_iff in H.
  destruct (Text.trimEnd s) eqn:E; [| discriminate].
  destruct (Text.is_space c) eqn:Hc; [| discriminate].
  destruct H as [H | H]; [discriminate |]. now destruct (IH H).
Qed.

Lemma trimEnd_no_trailing_space (s : string) :
  Text.ends_in_space (Text.trimEnd s) = false.
Proof.
  induction s as [| c s IH]; cbn; [reflexivity |].
  destruct (Text.trimEnd s) as [| d r] eqn:E.
  - destruct (Text.is_space c) eqn:Hc; cbn; [reflexivity | exact Hc].
  - cbn. cbn in IH. exact IH.
Qed.

Lemma trimEnd_ascii (s : string) :
  Text.is_ascii s = true -> Text.is_ascii (Text.trimEnd s) = true.
Proof.
  induction s as [| c s IH]; cbn; [reflexivity |].
  intro H. apply andb_true_iff in H. destruct H as (Hc & Hs).
  specialize (IH Hs).
  destruct (Text.trimEnd s) as [| d r].
  - destruct (Text.is_space c); cbn; [reflexivity | now rewrite Hc].
  - cbn [Text.is_ascii] in *. now rewrite Hc, IH.
Qed.

Lemma trim_text_class (cn : string) :
  Text.trim ("text " ++ cn) =
  match Text.trimEnd cn with
  | EmptyString => "text"
  | rest => ("text " ++ rest)%string
  end.
Proof.
  unfold Text.trim. cbn. now destruct (Text.trimEnd cn).
Qed.

(** X18: for a [className] prop of ASCII characters (or none), the class
    of a rendered text is exactly ["text"] when the prop is omitted, empty
    or blank, and otherwise ["text "] followed by the prop without its
    trailing white space; it begins with ["text"] and does not end in
    white space. *)
Theorem text_class (p : Text.Props) :
  let cn := Text.default EmptyString (Text.className p) in
  Text.is_ascii cn = true ->
  Text.class (Text.Text p)
    = (if Text.all_space cn then "text" else ("text " ++ Text.trimEnd cn)%string) /\
  String.prefix "text" (Text.class (Text.Text p)) = true /\
  Text.ends_in_space (Text.class (Text.Text p)) = false /\
  Text.is_ascii (Text.class (Text.Text p)) = true.
Proof.
  intros cn Hascii. cbn [Text.class Text.Text]. fold cn.
  rewrite trim_text_class.
  pose proof (trimEnd_no_trailing_space cn) as Hend.
  pose proof (trimEnd_ascii cn Hascii) as Ha.
  destruct (Text.all_space cn) eqn:Hall.
  - rewrite (trimEnd_all_space cn Hall). repeat split.
  - pose proof (trimEnd_not_all_space cn Hall) as Hne.
    destruct (Text.trimEnd cn) as [| c r]; [congruence |].
    repeat split; [exact Hend | exact Ha].
Qed.

Lemma text_class_witness :
  Text.class (Text.Text (Text.plain "hello")) = "text" /\
  Text.class
    (Text.Text (Text.mkProps "hello" None None None None None None None None
                  (Some "  note  ")))
  = "text   note".
Proof.
  split.
  - exact (proj1 (text_class (Text.plain "hello") eq_refl)).
  - exact (proj1 (text_class
      (Text.mkProps "hello" None None None None None None None None (Some "  note  "))
      eq_refl)).
Defined.

(** X19: a search result renders the title as a link to the URL that
    opens a new tab with [rel="noopener noreferrer"], then the URL itself
    as plain text clamped to one line, then the snippet only when it is a
    non-empty string.  The title is the only link.  Its data attributes
    are the variant, the ellipsis overflow and the line clamp
    [data-max-lines = titleMaxLines], two by default, the clamp being left
    out exactly when [titleMaxLines] is 0; those of the URL line are the
    variant, the overflow (ellipsis by default) and a clamp of one line;
    those of the snippet the variant and a clamp of three lines. *)
Theorem search_result_elements (p : SearchResult.Props) :
  exists t u rest,
    SearchResult.SearchResult p = t :: u :: rest /\
    Text.tag t = "a" /\ Text.el_href t = Some (SearchResult.url p) /\
    Text.el_target t = Some "_blank" /\
    Text.rel t = Some "noopener noreferrer" /\
    Text.content t = SearchResult.title p /\
    Text.tag u = "span" /\ Text.el_href u = None /\ Text.rel u = None /\
    Text.content u = SearchResult.url p /\
    In ("data-max-lines", Text.Num 1) (Text.data u) /\
    (List.length rest = if truthy (SearchResult.snippet p) then 1%nat else 0%nat) /\
    (forall e, In e rest ->
       Text.tag e = "p" /\ Text.el_href e = None /\
       Some (Text.content e) = SearchResult.snippet p) /\
    (forall v, In ("data-max-lines", v) (Text.data t) ->
       exists n, v = Text.Num n /\ n <> 0 /\
                 n = match SearchResult.titleMaxLines p with Some m => m | None => 2 end) /\
    (let n := match SearchResult.titleMaxLines p with Some m => m | None => 2 end in
     Text.data t
     = ([("data-variant", Text.Str "title"); ("data-overflow", Text.Str "ellipsis")]
        ++ (if n =? 0 then [] else [("data-max-lines", Text.Num n)]))%list) /\
    (let o := Text.default "ellipsis" (SearchResult.urlOverflow p) in
     Text.data u
     = ([("data-variant", Text.Str "url")]
        ++ (if String.eqb o EmptyString then [] else [("data-overflow", Text.Str o)])
        ++ [("data-max-lines", Text.Num 1)])%list) /\
    (forall e, In e rest ->
       Text.data e = [("data-variant", Text.Str "body"); ("data-max-lines", Text.Num 3)] /\
       Text.class e = "text search-result-snippet") /\
    Text.class t = "text search-result-title" /\
    Text.class u = "text search-result-url".
Proof.
  destruct p as [title url snippet tml uo].
  unfold SearchResult.SearchResult. cbn [SearchResult.title SearchResult.url
    SearchResult.snippet SearchResult.titleMaxLines SearchResult.urlOverflow app].
  eexists. eexists. eexists. split; [reflexivity |].
  cbn [Text.Text Text.tag Text.el_href Text.el_target Text.rel Text.content
       Text.data Text.href Text.target Text.children Text.as_ Text.default strict_eq].
  split; [now destruct (truthy (Some url)) |].
  do 4 (split; [reflexivity |]).
  do 4 (split; [reflexivity |]).
  split.
  { unfold Text.dataProps. cbn.
    destruct (String.eqb (Text.default "ellipsis" uo) EmptyString); cbn; auto. }
  split.
  { destruct snippet as [text |]; [| reflexivity].
    now destruct (truthy (Some text)). }
  split.
  { intros e He. destruct snippet as [text |]; [| contradiction].
    destruct (truthy (Some text)); [| contradiction].
    destruct He as [<- | []]. repeat split. }
  split.
  { intros v Hv. unfold Text.dataProps in Hv. cbn in Hv.
    set (n := match tml with Some m => m | None => 2 end) in *.
    destruct (Z.eqb_spec n 0) as [E | E]; cbn in Hv.
    + destruct Hv as [Hv | [Hv | []]]; discriminate.
    + destruct Hv as [Hv | [Hv | [Hv | []]]]; try discriminate.
      injection Hv as <-. exists n. auto. }
  split.
  { unfold Text.dataProps. cbn.
    now destruct (match tml with Some m => m | None => 2 end =? 0). }
  split.
  { unfold Text.dataProps. cbn.
    now destruct (String.eqb (Text.default "ellipsis" uo) EmptyString). }
  split.
  { intros e He. destruct snippet as [text |]; [| contradiction].
    destruct (truthy (Some text)); [| contradiction].
    destruct He as [<- | []]. split; reflexivity. }
  split; reflexivity.
Qed.

Lemma search_result_elements_witness :
  List.length (SearchResult.SearchResult SearchResult.example) = 3%nat.
Proof.
  destruct (search_result_elements SearchResult.example)
    as (t & u & rest & E & _ & _ & _ & _ & _ & _ & _ & _ & _ & _ & Hlen & _).
  rewrite E. cbn [List.length]. rewrite Hlen. reflexivity.
Defined.

(** * The status bar of the browser *)

Lemma find_findIndexFrom {A : Type} (test : A -> bool) (l : list A) (i : Z) :
  0 <= i ->
  match List.find test l with
  | Some x =>
      i <= findIndexFrom test l i /\
      nth_error l (Z.to_nat (findIndexFrom test l i - i)) = Some x
  | None => findIndexFrom test l i = -1
  end.
Proof.
  revert i. induction l as [| y l IH]; intros i Hi; cbn; [reflexivity |].
  destruct (test y).
  - split; [lia |]. now rewrite Z.sub_diag.
  - specialize (IH (i + 1) ltac:(lia)).
    destruct (List.find test l) as [x |]; [| exact IH].
    destruct IH as (Hle & Hnth). split; [lia |].
    replace (Z.to_nat (findIndexFrom test l (i + 1) - i))
      with (S (Z.to_nat (findIndexFrom test l (i + 1) - (i + 1)))) by lia.
    exact Hnth.
Qed.

(** X20: in a reachable state the status bar is missing only when nothing
    is selected or the panel is open; the plugin it names carries the
    selected id and is the one keyboard navigation starts from. *)
Theorem status_bar_names_selection (s : State) :
  reachable s ->
  (statusBar s = None <-> selectedId s = None \/ detailPlugin s <> None) /\
  (forall p, statusBar s = Some p ->
     selectedId s = Some (id p) /\ In p (plugins s) /\
     index (plugins s) (idx_of s) = Some p).
Proof.
  intro Hreach. pose proof (reachable_Inv s Hreach) as HI.
  assert (Hfind : forall p, selectedPlugin s = Some p ->
            selectedId s = Some (id p) /\ In p (plugins s) /\
            index (plugins s) (idx_of s) = Some p).
  { intros p Hp. unfold selectedPlugin in Hp.
    pose proof (find_findIndexFrom (fun p => strict_eq (id p) (selectedId s))
                  (plugins s) 0 ltac:(lia)) as Hidx.
    rewrite Hp in Hidx. destruct Hidx as (Hle & Hnth).
    apply find_some in Hp. destruct Hp as (Hin & Htest).
    destruct (selectedId s) as [x |] eqn:Hsel; [| discriminate].
    cbn in Htest. apply String.eqb_eq in Htest. subst x.
    repeat split; try assumption.
    unfold idx_of, currentIndex_of, findIndex. rewrite Hsel.
    destruct (Z.eqb_spec (findIndexFrom (fun p0 => strict_eq (id p0) (Some (id p)))
                            (plugins s) 0) (-1)) as [E | _]; [lia |].
    unfold index.
    destruct (Z.ltb_spec (findIndexFrom (fun p0 => strict_eq (id p0) (Some (id p)))
                            (plugins s) 0) 0); [lia |].
    now rewrite Z.sub_0_r in Hnth. }
  split.
  - unfold statusBar. split.
    + destruct (selectedPlugin s) as [p |] eqn:Hp.
      * destruct (detailPlugin s); [right; discriminate | discriminate].
      * intros _. destruct (selectedId s) as [x |] eqn:Hsel; [| now left].
        exfalso. pose proof (inv_selected s HI x Hsel) as Hin.
        apply in_map_iff in Hin. destruct Hin as (q & Hq & Hqin).
        unfold selectedPlugin in Hp.
        pose proof (find_none _ _ Hp q Hqin) as Hn. cbn in Hn.
        rewrite Hsel in Hn. cbn in Hn. rewrite Hq, String.eqb_refl in Hn. discriminate.
    + intros [Hnone | Hopen].
      * destruct (selectedPlugin s) as [p |] eqn:Hp; [| reflexivity].
        destruct (Hfind p eq_refl) as (Hsel & _). congruence.
      * destruct (selectedPlugin s); [| reflexivity].
        destruct (detailPlugin s); [reflexivity | congruence].
  - intros p Hp. apply Hfind. unfold statusBar in Hp.
    destruct (selectedPlugin s); [| discriminate].
    destruct (detailPlugin s); [discriminate | congruence].
Qed.

Lemma status_bar_names_selection_witness :
  statusBar (closeDetail panel_open) = Some alpha /\
  statusBar panel_open = None.
Proof.
  split.
  - destruct (status_bar_names_selection (closeDetail panel_open)) as (_ & Hsome).
    + apply (reachable_fire panel_open _ ClosePanel); [| reflexivity].
      apply (reachable_fire (loaded icons) _ (Click 0));
        [apply reachable_loaded | reflexivity].
    + reflexivity.
  - apply (status_bar_names_selection panel_open).
    + apply (reachable_fire (loaded icons) _ (Click 0));
        [apply reachable_loaded | reflexivity].
    + right. discriminate.
Defined.
